(** * Verification of the FastScan performance engine

    A shallow embedding of the audio engine ([utils/audioEngine.ts]) and of
    the playback scheduling of [App.tsx], with the properties of the pitch
    resolver, the measure arranger, the vocal playback adapter and the
    performance scheduler.

    Numbers.  A JavaScript [number] is idealised as a real number; the one
    place where the code can produce a value that is not a number (the note
    table looked up at a name it does not hold) is modelled by [number],
    which adds [NaN].  Strings are strings of character codes.

    Exceptions.  [App] gives the measure arranger and the scheduler with
    every call on the audio engine returning; [Live] adds the exceptions
    [playNote] and [playDrum] throw, which end a measure at the call that
    throws.  The two agree on every run in which nothing throws
    ([live_run_agrees]), and nothing throws on playable measures
    ([live_run_never_throws]). *)

From Stdlib Require Import Reals Lra Lia ZArith List String Ascii Bool Arith.
Import ListNotations.

Local Open Scope string_scope.

(** ** Pitch resolver: [AudioEngine.getFrequency] *)

Module Pitch.

(** The value of a JavaScript arithmetic expression: a real, or [NaN]. *)
Inductive number : Type :=
| Num (r : R)
| NaN.

(** [a < b] on JavaScript numbers: every comparison with [NaN] is false. *)
Definition num_lt (a b : number) : Prop :=
  match a, b with
  | Num x, Num y => (x < y)%R
  | _, _ => False
  end.

(** [b === 2 * a] on JavaScript numbers: [NaN] equals nothing. *)
Definition num_double (a b : number) : Prop :=
  match a, b with
  | Num x, Num y => (y = 2 * x)%R
  | _, _ => False
  end.

Definition code_between (lo hi : nat) (c : ascii) : bool :=
  (lo <=? nat_of_ascii c)%nat && (nat_of_ascii c <=? hi)%nat.

(** The character classes of the pattern: [[A-G]], [[#b]] and [[0-9]]. *)
Definition isLetterAG (c : ascii) : bool := code_between 65 71 c.
Definition isAccidental (c : ascii) : bool :=
  Ascii.eqb c "#" || Ascii.eqb c "b".
Definition isDigit (c : ascii) : bool := code_between 48 57 c.

(** The note table of [getFrequency]: seventeen names, semitones above C. *)
Definition notes_table : list (string * Z) :=
  [ ("C", 0); ("C#", 1); ("Db", 1); ("D", 2); ("D#", 3); ("Eb", 3);
    ("E", 4); ("F", 5); ("F#", 6); ("Gb", 6); ("G", 7); ("G#", 8);
    ("Ab", 8); ("A", 9); ("A#", 10); ("Bb", 10); ("B", 11) ]%Z.

Fixpoint assoc (k : string) (t : list (string * Z)) : option Z :=
  match t with
  | [] => None
  | (k', v) :: t' => if String.eqb k k' then Some v else assoc k t'
  end.

(** [notes[note]]: [None] stands for [undefined]. *)
Definition notes (note : string) : option Z := assoc note notes_table.

(** [[0-9]] at the head of the string. *)
Definition digit_here (s : string) : option ascii :=
  match s with
  | String d _ => if isDigit d then Some d else None
  | EmptyString => None
  end.

(** [/([A-G][#b]?)([0-9])/] tried at the head of the string: the optional
    accidental is greedy, and given up when no digit follows it. *)
Definition match_here (s : string) : option (string * ascii) :=
  match s with
  | EmptyString => None
  | String l rest =>
      if isLetterAG l then
        let plain := option_map (fun d => (String l "", d)) (digit_here rest) in
        match rest with
        | String a rest' =>
            if isAccidental a then
              match digit_here rest' with
              | Some d => Some (String l (String a ""), d)
              | None => plain
              end
            else plain
        | EmptyString => plain
        end
      else None
  end.

(** [pitch.match(...)]: the leftmost position where the pattern matches;
    the two capture groups of the match. *)
Fixpoint regex_match (s : string) : option (string * ascii) :=
  match match_here s with
  | Some m => Some m
  | None =>
      match s with
      | String _ rest => regex_match rest
      | EmptyString => None
      end
  end.

(** [parseInt] of a one-digit string. *)
Definition parseInt (d : ascii) : Z := Z.of_nat (nat_of_ascii d) - 48.

(** The exponent numerator of [getFrequency]:
    [notes[note] + (octave - 4) * 12]. *)
Definition semitones (n octave : Z) : Z := n + (octave - 4) * 12.

Definition getFrequency (pitch : string) : number :=
  match regex_match pitch with
  | None => Num 440
  | Some (note, d) =>
      let octave := parseInt d in
      match notes note with
      | Some n => Num (440 * Rpower 2 (IZR (semitones n octave) / 12))
      | None => NaN
      end
  end.

(** A pitch string as the specification describes it: a letter, an optional
    accidental and an octave digit. *)
Definition pitch_string (l : ascii) (acc : string) (d : ascii) : string :=
  String l (acc ++ String d "").

Definition accidental_ok (acc : string) : Prop :=
  acc = "" \/ acc = "#" \/ acc = "b".

Definition pitch_token (t : string) : Prop :=
  exists l acc d,
    isLetterAG l = true /\ accidental_ok acc /\ isDigit d = true /\
    t = pitch_string l acc d.

(** The string has a substring of the shape letter, optional accidental,
    digit. *)
Definition contains_pitch (s : string) : Prop :=
  exists pre t post, pitch_token t /\ s = pre ++ t ++ post.

(** The frequency the specification gives for a note [offset] semitones
    above C in [octave], relative to A4 = 440 Hz. *)
Definition spec_frequency (offset octave : Z) : R :=
  440 * Rpower 2 (IZR ((offset - 9) + (octave - 4) * 12) / 12).

End Pitch.

(** ** Vocal playback adapter: [AudioEngine.playVocalBuffer] *)

Module Vocal.

(** *** [atob]: the forgiving base64 decoding of the platform *)

Definition isAsciiWhitespace (c : ascii) : bool :=
  let n := nat_of_ascii c in
  (n =? 9)%nat || (n =? 10)%nat || (n =? 12)%nat || (n =? 13)%nat ||
  (n =? 32)%nat.

(** The value of a character of the base64 alphabet. *)
Definition sextet (c : ascii) : option N :=
  let n := N_of_ascii c in
  if ((65 <=? n) && (n <=? 90))%N then Some (n - 65)%N
  else if ((97 <=? n) && (n <=? 122))%N then Some (n - 71)%N
  else if ((48 <=? n) && (n <=? 57))%N then Some (n + 4)%N
  else if (n =? 43)%N then Some 62%N
  else if (n =? 47)%N then Some 63%N
  else None.

Definition isEquals (c : ascii) : bool := Ascii.eqb c "=".

(** Drops one or two trailing [=] signs when the length is a multiple of
    four. *)
Definition strip_padding (l : list ascii) : list ascii :=
  if (List.length l mod 4 =? 0)%nat then
    match rev l with
    | a :: b :: r =>
        if isEquals a then (if isEquals b then rev r else rev (b :: r))
        else l
    | [a] => if isEquals a then [] else l
    | [] => l
    end
  else l.

Fixpoint sextets (l : list ascii) : option (list N) :=
  match l with
  | [] => Some []
  | c :: l' =>
      match sextet c, sextets l' with
      | Some v, Some vs => Some (v :: vs)
      | _, _ => None
      end
  end.

(** Four sextets give three bytes; two left over give one byte and three
    left over give two, the remaining bits being dropped. *)
Fixpoint sextets_to_bytes (vs : list N) : list ascii :=
  match vs with
  | a :: b :: c :: d :: rest =>
      let n := (a * 262144 + b * 4096 + c * 64 + d)%N in
      ascii_of_N (n / 65536) :: ascii_of_N ((n / 256) mod 256)
        :: ascii_of_N (n mod 256) :: sextets_to_bytes rest
  | [a; b; c] =>
      let n := ((a * 4096 + b * 64 + c) / 4)%N in
      [ascii_of_N (n / 256); ascii_of_N (n mod 256)]
  | [a; b] => [ascii_of_N ((a * 64 + b) / 16)]
  | _ => []
  end.

(** [atob(data)]: [None] when the call throws [InvalidCharacterError]. *)
Definition atob (data : string) : option string :=
  let l := filter (fun c => negb (isAsciiWhitespace c))
                  (list_ascii_of_string data) in
  let l := strip_padding l in
  if (List.length l mod 4 =? 1)%nat then None
  else
    match sextets l with
    | None => None
    | Some vs => Some (string_of_list_ascii (sextets_to_bytes vs))
    end.

(** *** The adapter *)

(** What an [async] function gives back: a promise that resolves, or one
    that rejects with the exception that escaped the body. *)
Inductive Promise (A : Type) : Type :=
| Resolved (a : A)
| Rejected (error : string).
Arguments Resolved {A} a.
Arguments Rejected {A} error.

Section Adapter.

(** The decoded audio of the platform, and its decoder: [None] when
    [decodeAudioData] rejects. *)
Variable AudioBuffer : Type.
Variable decodeAudioData : list N -> option AudioBuffer.

(** The observable actions of the adapter. *)
Inductive VocalAction : Type :=
| SourceStart (buffer : AudioBuffer) (startTime : R)
| ConsoleWarn (message : string).

(** [bytes[i] = binaryString.charCodeAt(i)]. *)
Definition toBytes (binaryString : string) : list N :=
  map N_of_ascii (list_ascii_of_string binaryString).

(** [atob] is called before the [try] block is entered; only the decoding
    of the audio data is inside it. *)
Definition playVocalBuffer (base64 : string) (startTime : R)
  : Promise (list VocalAction) :=
  match atob base64 with
  | None => Rejected "InvalidCharacterError"
  | Some binaryString =>
      match decodeAudioData (toBytes binaryString) with
      | Some audioBuffer => Resolved [SourceStart audioBuffer startTime]
      | None => Resolved [ConsoleWarn "Could not decode vocal buffer."]
      end
  end.

End Adapter.

Arguments SourceStart {AudioBuffer} buffer startTime.
Arguments ConsoleWarn {AudioBuffer} message.

End Vocal.

(** ** The score data of [types.ts] *)

Module Score.

Inductive InstrumentType : Type :=
| PIANO | GUITAR | BASS | DRUMS | MALE_VOCAL | FEMALE_VOCAL.

Definition InstrumentType_eqb (a b : InstrumentType) : bool :=
  match a, b with
  | PIANO, PIANO | GUITAR, GUITAR | BASS, BASS | DRUMS, DRUMS
  | MALE_VOCAL, MALE_VOCAL | FEMALE_VOCAL, FEMALE_VOCAL => true
  | _, _ => false
  end.

Record Note : Type := mkNote {
  pitch : string;
  duration : R;
  lyrics : option string }.

Record Measure : Type := mkMeasure {
  chords : list string;
  melody : list Note;
  drumGroove : option string }.

Record ScoreData : Type := mkScore {
  title : string;
  score_tempo : R;
  timeSignature : string;
  keySignature : string;
  measures : list Measure }.

End Score.

(** ** Measure arranger and performance scheduler: [App.tsx] *)

Module App.

Import Score.

Local Open Scope list_scope.
Local Open Scope R_scope.

Inductive DrumType : Type := kick | snare | hihat.

(** The calls the application makes on the audio engine. *)
Inductive AudioCall : Type :=
| PlayNote (pitch : string) (duration : R) (instrument : InstrumentType)
           (startTime : R)
| PlayDrum (type : DrumType) (startTime : R)
| PlayVocalBuffer (base64 : string) (startTime : R).

(** The pending timeout: its delay in milliseconds, and what the callback
    closed over ([measureDuration] and [score.measures.length]). *)
Record Timeout : Type := mkTimeout {
  delay_ms : R;
  measureDuration : R;
  measureCount : nat }.

(** The state of the [App] component: the [useState] cells that playback
    reads, the two refs, and the calls made on the audio engine so far.
    [playbackTimerRef] is [Some] exactly while a timeout is pending. *)
Record AppState : Type := mkApp {
  score : option ScoreData;
  isPlaying : bool;
  tempo : R;
  selectedInstruments : list InstrumentType;
  currentMeasureIndex : nat;
  vocalAudioMap : nat -> option string;
  playbackTimerRef : option Timeout;
  measureStartTimeRef : R;
  audio : list AudioCall }.

(** [selectedInstruments.has(i)]. *)
Definition has (sel : list InstrumentType) (i : InstrumentType) : bool :=
  existsb (InstrumentType_eqb i) sel.

(** [chord.charAt(0)]: the empty string when the chord is empty. *)
Definition charAt0 (s : string) : string :=
  match s with
  | String c _ => String c ""
  | EmptyString => ""
  end.

(** The [forEach] over the melody, with its running [offset]: the calls it
    makes, in order, when each of them returns.  A call that throws ends
    the list there; that is [Live.perform]. *)
Fixpoint melodyLoop (inst : InstrumentType) (beatDuration startTime offset : R)
    (ns : list Note) : list AudioCall :=
  match ns with
  | [] => []
  | note :: rest =>
      PlayNote (pitch note) (duration note * beatDuration) inst
               (startTime + offset)
        :: melodyLoop inst beatDuration startTime
             (offset + duration note * beatDuration) rest
  end.

Definition melodyPart (sel : list InstrumentType) (beatDuration startTime : R)
    (m : Measure) : list AudioCall :=
  if has sel PIANO || has sel GUITAR then
    melodyLoop (if has sel PIANO then PIANO else GUITAR)
               beatDuration startTime 0 (melody m)
  else [].

(** The [forEach] over the chords, with its index [i]. *)
Fixpoint bassLoop (chordDuration startTime : R) (i : nat) (cs : list string)
    : list AudioCall :=
  match cs with
  | [] => []
  | chord :: rest =>
      PlayNote (charAt0 chord ++ "2")%string chordDuration BASS
               (startTime + INR i * chordDuration)
        :: bassLoop chordDuration startTime (S i) rest
  end.

Definition bassPart (sel : list InstrumentType) (beatDuration startTime : R)
    (m : Measure) : list AudioCall :=
  if has sel BASS && (0 <? List.length (chords m))%nat then
    bassLoop ((4 * beatDuration) / INR (List.length (chords m)))
             startTime 0 (chords m)
  else [].

(** One turn of the loop [for (let i = 0; i < 4; i++)]. *)
Definition drumStep (beatDuration startTime : R) (i : nat) : list AudioCall :=
  [ PlayDrum hihat (startTime + INR i * beatDuration);
    PlayDrum hihat (startTime + INR i * beatDuration + 0.5 * beatDuration) ]
  ++ (if (i =? 0)%nat || (i =? 2)%nat
      then [PlayDrum kick (startTime + INR i * beatDuration)] else [])
  ++ (if (i =? 1)%nat || (i =? 3)%nat
      then [PlayDrum snare (startTime + INR i * beatDuration)] else []).

Definition drumPart (sel : list InstrumentType) (beatDuration startTime : R)
    : list AudioCall :=
  if has sel DRUMS then flat_map (drumStep beatDuration startTime) (seq 0 4)
  else [].

(** [vocalAudioMap[index]] is truthy: present and not the empty string. *)
Definition vocalPart (sel : list InstrumentType)
    (vocals : nat -> option string) (index : nat) (startTime : R)
    : list AudioCall :=
  match vocals index with
  | Some (String c payload) =>
      if has sel MALE_VOCAL || has sel FEMALE_VOCAL
      then [PlayVocalBuffer (String c payload) startTime] else []
  | _ => []
  end.

(** The calls of [playMeasure] for a measure that exists, in the order it
    makes them, when none of them throws.  [Live.arranged] gives those that
    return and the exception that cuts the list short. *)
Definition arrange (sel : list InstrumentType) (vocals : nat -> option string)
    (tempo : R) (index : nat) (startTime : R) (m : Measure) : list AudioCall :=
  let beatDuration := 60 / tempo in
  melodyPart sel beatDuration startTime m
  ++ bassPart sel beatDuration startTime m
  ++ drumPart sel beatDuration startTime
  ++ vocalPart sel vocals index startTime.

(** [playMeasure(index, startTime)], every call on the audio engine
    returning.  [None] is the [TypeError] raised when
    [score.measures[index]] is [undefined] and a selected track reads its
    melody or chords; no call has been made when it is raised.  The
    exceptions of the engine itself are added by [Live.playMeasure]. *)
Definition playMeasure (s : AppState) (index : nat) (startTime : R)
    : option (list AudioCall) :=
  match score s with
  | None => Some []
  | Some sc =>
      let sel := selectedInstruments s in
      match nth_error (measures sc) index with
      | Some m => Some (arrange sel (vocalAudioMap s) (tempo s) index startTime m)
      | None =>
          if has sel PIANO || has sel GUITAR || has sel BASS then None
          else Some (drumPart sel (60 / tempo s) startTime
                     ++ vocalPart sel (vocalAudioMap s) index startTime)
      end
  end.

(** *** The scheduling effect *)

Definition set_timer (t : option Timeout) (s : AppState) : AppState :=
  mkApp (score s) (isPlaying s) (tempo s) (selectedInstruments s)
        (currentMeasureIndex s) (vocalAudioMap s) t
        (measureStartTimeRef s) (audio s).

Definition set_anchor (a : R) (s : AppState) : AppState :=
  mkApp (score s) (isPlaying s) (tempo s) (selectedInstruments s)
        (currentMeasureIndex s) (vocalAudioMap s) (playbackTimerRef s)
        a (audio s).

Definition set_audio (a : list AudioCall) (s : AppState) : AppState :=
  mkApp (score s) (isPlaying s) (tempo s) (selectedInstruments s)
        (currentMeasureIndex s) (vocalAudioMap s) (playbackTimerRef s)
        (measureStartTimeRef s) a.

Definition set_isPlaying (b : bool) (s : AppState) : AppState :=
  mkApp (score s) b (tempo s) (selectedInstruments s)
        (currentMeasureIndex s) (vocalAudioMap s) (playbackTimerRef s)
        (measureStartTimeRef s) (audio s).

Definition set_index (i : nat) (s : AppState) : AppState :=
  mkApp (score s) (isPlaying s) (tempo s) (selectedInstruments s)
        i (vocalAudioMap s) (playbackTimerRef s)
        (measureStartTimeRef s) (audio s).

Definition set_tempo (t : R) (s : AppState) : AppState :=
  mkApp (score s) (isPlaying s) t (selectedInstruments s)
        (currentMeasureIndex s) (vocalAudioMap s) (playbackTimerRef s)
        (measureStartTimeRef s) (audio s).

Definition set_selected (sel : list InstrumentType) (s : AppState) : AppState :=
  mkApp (score s) (isPlaying s) (tempo s) sel
        (currentMeasureIndex s) (vocalAudioMap s) (playbackTimerRef s)
        (measureStartTimeRef s) (audio s).

(** The anchor [scheduleNext] uses: set from the audio clock when it is 0. *)
Definition anchorAt (now : R) (s : AppState) : R :=
  if Req_dec_T (measureStartTimeRef s) 0 then now + 0.1
  else measureStartTimeRef s.

(** One run of the [useEffect]: the cleanup of the previous run clears the
    pending timeout, then the body runs at audio-clock time [now].  [None]
    is the exception of [playMeasure] escaping the effect. *)
Definition runEffect (now : R) (s : AppState) : option AppState :=
  let s := set_timer None s in
  match isPlaying s, score s with
  | true, Some sc =>
      let beatDuration := 60 / tempo s in
      let measureDuration := 4 * beatDuration in
      let start := anchorAt now s in
      match playMeasure s (currentMeasureIndex s) start with
      | None => None
      | Some calls =>
          Some (set_timer
                  (Some (mkTimeout (measureDuration * 1000) measureDuration
                                   (List.length (measures sc))))
                  (set_audio (audio s ++ calls) (set_anchor start s)))
      end
  | _, _ => Some s
  end.

(** The callback of the timeout, on the timeout [t] that fires. *)
Definition timerCallback (t : Timeout) (s : AppState) : AppState :=
  let s := set_anchor (measureStartTimeRef s + measureDuration t)
                      (set_timer None s) in
  let next := (currentMeasureIndex s + 1)%nat in
  if (measureCount t <=? next)%nat
  then set_index 0 (set_isPlaying false s)
  else set_index next s.

(** [Math.max(40, t - 5)] and [Math.min(240, t + 5)]. *)
Definition tempoMinus (t : R) : R := Rmax 40 (t - 5).
Definition tempoPlus (t : R) : R := Rmin 240 (t + 5).

(** [n.has(i) ? n.delete(i) : n.add(i)] on a copy of the set. *)
Definition toggle (i : InstrumentType) (sel : list InstrumentType)
    : list InstrumentType :=
  if has sel i then filter (fun j => negb (InstrumentType_eqb i j)) sel
  else sel ++ [i].

(** What the user and the clock can do to a loaded application. *)
Inductive Input : Type :=
| TimerFires
| TempoMinus
| TempoPlus
| PlayToggle
| ResetSession
| ToggleInstrument (i : InstrumentType).

(** The handler of an input, before React renders again. *)
Definition handle (i : Input) (s : AppState) : AppState :=
  match i with
  | TimerFires =>
      match playbackTimerRef s with
      | Some t => timerCallback t s
      | None => s
      end
  | TempoMinus => set_tempo (tempoMinus (tempo s)) s
  | TempoPlus => set_tempo (tempoPlus (tempo s)) s
  | PlayToggle =>
      let s := if isPlaying s then s else set_anchor 0 s in
      set_isPlaying (negb (isPlaying s)) s
  | ResetSession =>
      set_anchor 0 (set_index 0 (set_isPlaying false s))
  | ToggleInstrument i => set_selected (toggle i (selectedInstruments s)) s
  end.

(** Whether a dependency of the effect changed between two renders:
    [isPlaying], [currentMeasureIndex], [tempo], or [playMeasure], which is
    rebuilt when [tempo] or [selectedInstruments] is; a toggle always makes
    a new set.  The score and the vocal map do not change under [Input]. *)
Definition depsChanged (i : Input) (old new : AppState) : bool :=
  negb (Bool.eqb (isPlaying old) (isPlaying new))
  || negb (currentMeasureIndex old =? currentMeasureIndex new)%nat
  || (if Req_dec_T (tempo old) (tempo new) then false else true)
  || match i with ToggleInstrument _ => true | _ => false end.

(** One input, then the render that follows it at audio-clock time [now]:
    the effect runs again when one of its dependencies changed.  [None]
    when the effect throws. *)
Definition step (now : R) (i : Input) (s : AppState) : option AppState :=
  let s' := handle i s in
  if depsChanged i s s' then runEffect now s' else Some s'.

(** A run: inputs with the clock time of each. *)
Fixpoint run (ins : list (R * Input)) (s : AppState) : option AppState :=
  match ins with
  | [] => Some s
  | (now, i) :: rest =>
      match step now i s with
      | Some s' => run rest s'
      | None => None
      end
  end.

(** A measure is armed: playback is on and its timeout is pending. *)
Definition armed (s : AppState) : Prop :=
  isPlaying s = true /\ playbackTimerRef s <> None.

(** *** Reading a list of calls

    The calls of one track, in the order they were made. *)

Definition isMelodyCall (c : AudioCall) : bool :=
  match c with
  | PlayNote _ _ PIANO _ | PlayNote _ _ GUITAR _ => true
  | _ => false
  end.

Definition isBassCall (c : AudioCall) : bool :=
  match c with
  | PlayNote _ _ BASS _ => true
  | _ => false
  end.

Definition DrumType_eqb (a b : DrumType) : bool :=
  match a, b with
  | kick, kick | snare, snare | hihat, hihat => true
  | _, _ => false
  end.

Definition melodyCalls (cs : list AudioCall) : list AudioCall :=
  filter isMelodyCall cs.

Definition bassCalls (cs : list AudioCall) : list AudioCall :=
  filter isBassCall cs.

(** The start times of the hits of one drum voice. *)
Fixpoint drumTimes (ty : DrumType) (cs : list AudioCall) : list R :=
  match cs with
  | [] => []
  | PlayDrum ty' t :: cs' =>
      if DrumType_eqb ty ty' then t :: drumTimes ty cs' else drumTimes ty cs'
  | _ :: cs' => drumTimes ty cs'
  end.

(** The sum of the durations of the tones of a list of calls. *)
Fixpoint toneSeconds (cs : list AudioCall) : R :=
  match cs with
  | [] => 0
  | PlayNote _ d _ _ :: cs' => d + toneSeconds cs'
  | _ :: cs' => toneSeconds cs'
  end.

(** The sum of the durations, in beats, of a list of notes. *)
Fixpoint sumDurations (ns : list Note) : R :=
  match ns with
  | [] => 0
  | note :: rest => duration note + sumDurations rest
  end.

(** The measure of the scenario: C4, E4 and G4 of one, one and two beats. *)
Definition scenarioMeasure : Measure :=
  mkMeasure [] [mkNote "C4" 1 None; mkNote "E4" 1 None; mkNote "G4" 2 None]
            None.

(** A measure with two chords and no melody. *)
Definition twoChordMeasure : Measure :=
  mkMeasure ["Cmaj7"; "G7"]%string [] (Some "swing"%string).

(** The pending timeout belongs to the current playback: playback is on
    and the callback closed over the score that is loaded. *)
Definition timerConsistent (s : AppState) : Prop :=
  forall t, playbackTimerRef s = Some t ->
    isPlaying s = true /\
    exists sc, score s = Some sc /\
               measureCount t = List.length (measures sc).

(** A score of ten measures, and the application playing its second
    measure at tempo 90: the measure was armed at anchor 2.5 with the
    timeout of a measure at that tempo. *)
Definition tenMeasures : ScoreData :=
  mkScore "Etude" 90 "4/4" "C" (repeat scenarioMeasure 10).

Definition armedState : AppState :=
  mkApp (Some tenMeasures) true 90 [PIANO; DRUMS] 1 (fun _ => None)
        (Some (mkTimeout (4 * (60 / 90) * 1000) (4 * (60 / 90)) 10))
        2.5 [].

(** A score of four measures, and the application playing its last one. *)
Definition fourMeasures : ScoreData :=
  mkScore "Round" 90 "4/4" "G" (repeat twoChordMeasure 4).

Definition lastMeasureState : AppState :=
  mkApp (Some fourMeasures) true 90 [PIANO; DRUMS] 3 (fun _ => None)
        (Some (mkTimeout (4 * (60 / 90) * 1000) (4 * (60 / 90)) 4))
        8.1 [].

(** The application stopped, with no score loaded, at tempo 238. *)
Definition idleState : AppState :=
  mkApp None false 238 [PIANO; DRUMS] 0 (fun _ => None) None 0 [].

End App.

(** ** The output graph: [AudioEngine.init], [context], [analyserNode] *)

Module Engine.

Local Open Scope R_scope.

(** The three private fields of the engine.  [ctx] holds the number of the
    [AudioContext] it refers to (contexts are numbered in the order they are
    constructed), [masterGain] the value of its gain and [analyser] its
    [fftSize]; [constructed] counts the contexts constructed so far. *)
Record AudioEngine : Type := mkEngine {
  ctx : option nat;
  masterGain : option R;
  analyser : option nat;
  constructed : nat }.

(** The engine as the module exports it: [new AudioEngine()]. *)
Definition fresh : AudioEngine := mkEngine None None None 0.

Definition init (e : AudioEngine) : AudioEngine :=
  match ctx e with
  | Some _ => e
  | None =>
      mkEngine (Some (constructed e)) (Some 0.5) (Some 256%nat)
               (S (constructed e))
  end.

(** The getter [context]: the engine after the call, and [this.ctx]. *)
Definition context (e : AudioEngine) : AudioEngine * option nat :=
  let e' := match ctx e with None => init e | Some _ => e end in
  (e', ctx e').

(** The getter [analyserNode]: the engine after the call, and
    [this.analyser]. *)
Definition analyserNode (e : AudioEngine) : AudioEngine * option nat :=
  let e' := match analyser e with None => init e | Some _ => e end in
  (e', analyser e').

(** The ways the rest of the program reaches the graph: [init()] from the
    play button, [context] at the head of every [play...] method and from
    the scheduler, [analyserNode] from the equalizer. *)
Inductive Access : Type := CallInit | GetContext | GetAnalyserNode.

Definition access (e : AudioEngine) (a : Access) : AudioEngine :=
  match a with
  | CallInit => init e
  | GetContext => fst (context e)
  | GetAnalyserNode => fst (analyserNode e)
  end.

Definition accesses (l : list Access) (e : AudioEngine) : AudioEngine :=
  fold_left access l e.

(** The graph once built. *)
Definition ready : AudioEngine :=
  mkEngine (Some 0%nat) (Some 0.5) (Some 256%nat) 1.

End Engine.

(** ** The equalizer: the sampling of [NeonEqualizer.draw] *)

Module Equalizer.

Local Open Scope R_scope.

Definition barCount : nat := 40.

(** [Math.floor((i / barCount) * (bufferLength / 2))]. *)
Definition sampleIndex (i bufferLength : nat) : Z :=
  Int_part ((INR i / INR barCount) * (INR bufferLength / 2)).

End Equalizer.

(** ** The service: [GeminiService] *)

Module Service.

Local Open Scope R_scope.

Definition MAX_DIM : R := 1024.

(** The size [compressImage] draws the image at, from the size of the
    image. *)
Definition compressImage_size (width height : R) : R * R :=
  if Rlt_dec height width then
    if Rlt_dec MAX_DIM width
    then (MAX_DIM, height * (MAX_DIM / width))
    else (width, height)
  else
    if Rlt_dec MAX_DIM height
    then (width * (MAX_DIM / height), MAX_DIM)
    else (width, height).

(** The end of [generateVocalAudio], on the inline data read from the
    response through the optional chain ([None] when a link is missing):
    [None] is the exception "TTS Engine unreachable". *)
Definition generateVocalAudio (inlineData : option string) : option string :=
  match inlineData with
  | Some (String c d) => Some (String c d)
  | _ => None
  end.

End Service.

(** ** Preparing the vocals: [App.generateAllVocals] *)

Module Loader.

Import Score App.

Local Open Scope list_scope.

(** [n.lyrics] is truthy: present and not empty. *)
Definition hasLyrics (n : Note) : bool :=
  match lyrics n with
  | Some (String _ _) => true
  | _ => false
  end.

Definition lyricsText (n : Note) : string :=
  match lyrics n with
  | Some l => l
  | None => ""
  end.

(** [Array.prototype.join]. *)
Fixpoint join (sep : string) (l : list string) : string :=
  match l with
  | [] => ""
  | [x] => x
  | x :: rest => (x ++ sep ++ join sep rest)%string
  end.

(** White space and line terminators among the character codes below 256:
    what [trim] removes. *)
Definition isWhiteSpace (c : ascii) : bool :=
  let n := nat_of_ascii c in
  ((9 <=? n) && (n <=? 13) || (n =? 32) || (n =? 160))%nat.

Fixpoint trimStart (l : list ascii) : list ascii :=
  match l with
  | c :: l' => if isWhiteSpace c then trimStart l' else l
  | [] => []
  end.

(** [String.prototype.trim]. *)
Definition trim (s : string) : string :=
  string_of_list_ascii
    (rev (trimStart (rev (trimStart (list_ascii_of_string s))))).

(** The lyrics of a measure:
    [measure.melody.filter(n => n.lyrics).map(n => n.lyrics).join(' ')]. *)
Definition lyricsOf (m : Measure) : string :=
  join " " (map lyricsText (filter hasLyrics (melody m))).

Definition nonEmpty (s : string) : bool :=
  match s with
  | EmptyString => false
  | String _ _ => true
  end.

(** [map[res.index] = res.audio]. *)
Definition insertVocal (i : nat) (audio : string)
    (map : nat -> option string) : nat -> option string :=
  fun k => if (k =? i)%nat then Some audio else map k.

(** [results.forEach(res => { if (res) map[res.index] = res.audio; })], one
    result at a time. *)
Definition storeResult (map : nat -> option string)
    (res : option (nat * string)) : nat -> option string :=
  match res with
  | Some (i, audio) => insertVocal i audio map
  | None => map
  end.

Section Generate.

(** The inline audio data of the response to the request made for measure
    [i] with a prompt and a voice name; [None] when the request fails or
    the response carries no data. *)
Variable respond : nat -> string -> string -> option string.

(** The promise of measure [i]: [None] is the [null] it resolves to. *)
Definition vocalOfMeasure (voice : string) (i : nat) (m : Measure)
    : option (nat * string) :=
  let lyrics := lyricsOf m in
  if nonEmpty (trim lyrics) then
    match Service.generateVocalAudio
            (respond i ("Vocalize: " ++ lyrics)%string voice) with
    | Some audio => Some (i, audio)
    | None => None
    end
  else None.

(** [data.measures.map(async (measure, i) => ...)], once all have settled. *)
Fixpoint vocalResults (voice : string) (i : nat) (ms : list Measure)
    : list (option (nat * string)) :=
  match ms with
  | [] => []
  | m :: rest => vocalOfMeasure voice i m :: vocalResults voice (S i) rest
  end.

(** The map [generateAllVocals] stores in [vocalAudioMap]. *)
Definition generateAllVocals (sel : list InstrumentType) (data : ScoreData)
    : nat -> option string :=
  let voice := if has sel FEMALE_VOCAL then "Kore" else "Puck" in
  fold_left storeResult (vocalResults voice 0 (measures data))
            (fun _ => None).

End Generate.

End Loader.

(** ** Whole performances *)

Module Playback.

Import Score App.

Local Open Scope list_scope.
Local Open Scope R_scope.

(** The timeout firing at each of the given clock times. *)
Definition fires (nows : list R) : list (R * Input) :=
  map (fun now => (now, TimerFires)) nows.

(** The calls of the measures [ms], numbered from [index], arranged one
    after the other from [anchor] on, a measure of four beats apart. *)
Fixpoint performance (sel : list InstrumentType)
    (vocals : nat -> option string) (tempo : R) (index : nat) (anchor : R)
    (ms : list Measure) : list AudioCall :=
  match ms with
  | [] => []
  | m :: rest =>
      arrange sel vocals tempo index anchor m
      ++ performance sel vocals tempo (S index)
           (anchor + 4 * (60 / tempo)) rest
  end.

(** The end of a tone: [osc.stop(startTime + duration)] in [playNote]. *)
Definition toneEnd (c : AudioCall) : option R :=
  match c with
  | PlayNote _ d _ t => Some (t + d)
  | _ => None
  end.

(** The start time of a call. *)
Definition callStart (c : AudioCall) : R :=
  match c with
  | PlayNote _ _ _ t => t
  | PlayDrum _ t => t
  | PlayVocalBuffer _ t => t
  end.

(** The application stopped at the first of four measures, at tempo 120. *)
Definition stoppedState : AppState :=
  mkApp (Some fourMeasures) false 120 [PIANO; DRUMS] 0 (fun _ => None)
        None 0 [].

(** The application stopped, with a score of no measure loaded. *)
Definition emptyScoreState : AppState :=
  mkApp (Some (mkScore "Blank" 90 "4/4" "C" [])) false 90 [PIANO; DRUMS] 0
        (fun _ => None) None 0 [].

End Playback.

(** ** The calls with the exceptions of the engine

    [playNote] and [playDrum] can throw: [AudioParam.setValueAtTime] takes
    its value as a float and throws [TypeError] on [NaN], and it, the
    exponential ramp, [start] and [stop] throw [RangeError] on a negative
    time.  [playMeasure] catches nothing, so the first call that throws
    ends the measure: the calls after it are not made, and the exception
    leaves the scheduling effect. *)

Module Live.

Import Score App.

Local Open Scope list_scope.
Local Open Scope R_scope.

Inductive Outcome : Type :=
| Returned
| Threw (error : string).

Definition negative (t : R) : bool :=
  if Rlt_dec t 0 then true else false.

(** [playNote(pitch, duration, instrument, startTime)]: the frequency is
    set at [startTime], the gain is ramped until [startTime + duration],
    then the oscillator is started and stopped at these times.  Nothing is
    scheduled when it throws. *)
Definition playNote (pitch : string) (duration : R) (startTime : R)
    : Outcome :=
  match Pitch.getFrequency pitch with
  | Pitch.NaN => Threw "TypeError"
  | Pitch.Num _ =>
      if negative startTime then Threw "RangeError"
      else if negative (startTime + duration) then Threw "RangeError"
      else Returned
  end.

(** [playDrum(type, startTime)]: each of the three voices sets a parameter
    at [startTime] first. *)
Definition playDrum (startTime : R) : Outcome :=
  if negative startTime then Threw "RangeError" else Returned.

(** A call as [playMeasure] makes it.  [playVocalBuffer] is an [async]
    method that is not awaited: what it throws rejects its promise and
    does not reach [playMeasure]. *)
Definition call (c : AudioCall) : Outcome :=
  match c with
  | PlayNote pitch duration _ startTime => playNote pitch duration startTime
  | PlayDrum _ startTime => playDrum startTime
  | PlayVocalBuffer _ _ => Returned
  end.

(** The calls made in order until one throws: those that returned, and
    the exception if there was one. *)
Fixpoint perform (cs : list AudioCall) : list AudioCall * option string :=
  match cs with
  | [] => ([], None)
  | c :: rest =>
      match call c with
      | Threw e => ([], Some e)
      | Returned => let (done, err) := perform rest in (c :: done, err)
      end
  end.

(** The body of [playMeasure] on a measure that exists: the calls that
    returned, and the exception that left it if one did. *)
Definition arranged (sel : list InstrumentType)
    (vocals : nat -> option string) (tempo : R) (index : nat)
    (startTime : R) (m : Measure) : list AudioCall * option string :=
  perform (arrange sel vocals tempo index startTime m).

(** [playMeasure(index, startTime)]. *)
Definition playMeasure (s : AppState) (index : nat) (startTime : R)
    : list AudioCall * option string :=
  match App.playMeasure s index startTime with
  | None => ([], Some "TypeError")
  | Some calls => perform calls
  end.

(** One run of the [useEffect]; [None] when an exception leaves it. *)
Definition runEffect (now : R) (s : AppState) : option AppState :=
  let s := set_timer None s in
  match isPlaying s, score s with
  | true, Some sc =>
      let beatDuration := 60 / tempo s in
      let measureDuration := 4 * beatDuration in
      let start := anchorAt now s in
      match playMeasure s (currentMeasureIndex s) start with
      | (_, Some _) => None
      | (calls, None) =>
          Some (set_timer
                  (Some (mkTimeout (measureDuration * 1000) measureDuration
                                   (List.length (measures sc))))
                  (set_audio (audio s ++ calls) (set_anchor start s)))
      end
  | _, _ => Some s
  end.

Definition step (now : R) (i : Input) (s : AppState) : option AppState :=
  let s' := handle i s in
  if depsChanged i s s' then runEffect now s' else Some s'.

Fixpoint run (ins : list (R * Input)) (s : AppState) : option AppState :=
  match ins with
  | [] => Some s
  | (now, i) :: rest =>
      match step now i s with
      | Some s' => run rest s'
      | None => None
      end
  end.

(** A pitch the resolver gives a frequency for. *)
Definition resolves (pitch : string) : bool :=
  match Pitch.getFrequency pitch with
  | Pitch.Num _ => true
  | Pitch.NaN => false
  end.

(** A note [playNote] accepts at any time that is not negative: its pitch
    resolves and its duration is not negative. *)
Definition playableNote (n : Note) : Prop :=
  resolves (pitch n) = true /\ 0 <= duration n.

Definition playable (m : Measure) : Prop :=
  Forall playableNote (melody m).

(** A state from which no call can throw: the index is inside a score of
    playable measures, the tempo is positive, the start anchor is not
    negative, and a pending timeout belongs to the playback and was armed
    for a duration that is not negative. *)
Definition safe (sc : ScoreData) (s : AppState) : Prop :=
  score s = Some sc /\
  Forall playable (measures sc) /\
  (currentMeasureIndex s < List.length (measures sc))%nat /\
  timerConsistent s /\
  0 < tempo s /\
  0 <= measureStartTimeRef s /\
  (forall t, playbackTimerRef s = Some t -> 0 <= measureDuration t).

(** The clock times of a run are not negative. *)
Definition clockOk (ins : list (R * Input)) : Prop :=
  Forall (fun ni => 0 <= fst ni) ins.

(** A measure whose second melody note is named Cb. *)
Definition midFlatMeasure : Measure :=
  mkMeasure ["F"]%string
            [mkNote "C4" 1 None; mkNote "Cb4" 1 None; mkNote "E4" 2 None]
            None.

(** A measure whose first melody note is named Cb, with two chords. *)
Definition flatMeasure : Measure :=
  mkMeasure ["C"; "G"]%string
            [mkNote "Cb4" 1 None; mkNote "C4" 1 None] None.

End Live.

(** * Properties *)

(** ** Pitch resolver *)

Section PitchFacts.

Import Pitch.

Lemma digit_not_accidental (d : ascii) :
  isDigit d = true -> isAccidental d = false.
Proof.
  unfold isDigit, isAccidental, code_between.
  destruct (Ascii.eqb_spec d "#") as [->|_]; [discriminate|].
  destruct (Ascii.eqb_spec d "b") as [->|_]; [discriminate|reflexivity].
Qed.

Lemma accidental_ok_cases (a : ascii) :
  isAccidental a = true -> accidental_ok (String a "").
Proof.
  unfold isAccidental, accidental_ok.
  destruct (Ascii.eqb_spec a "#") as [->|_]; [auto|].
  destruct (Ascii.eqb_spec a "b") as [->|_]; [auto|discriminate].
Qed.

Lemma digit_here_Some (s : string) (d : ascii) :
  digit_here s = Some d ->
  isDigit d = true /\ exists rest, s = String d rest.
Proof.
  destruct s as [|c s]; simpl; [discriminate|].
  destruct (isDigit c) eqn:E; [|discriminate].
  intros [= <-]. split; [assumption|]. now exists s.
Qed.

(** A match at the head of the string is a pitch token followed by the rest
    of the string. *)
Lemma match_here_sound (s note : string) (d : ascii) :
  match_here s = Some (note, d) ->
  exists l acc post,
    isLetterAG l = true /\ accidental_ok acc /\ isDigit d = true /\
    note = String l acc /\ s = pitch_string l acc d ++ post.
Proof.
  destruct s as [|l rest]; simpl; [discriminate|].
  destruct (isLetterAG l) eqn:El; [|discriminate].
  assert (Hplain :
    option_map (fun d0 => (String l "", d0)) (digit_here rest) = Some (note, d) ->
    exists l0 acc post,
      isLetterAG l0 = true /\ accidental_ok acc /\ isDigit d = true /\
      note = String l0 acc /\ String l rest = pitch_string l0 acc d ++ post).
  { destruct (digit_here rest) as [d0|] eqn:Ed; simpl; [|discriminate].
    intros [= <- <-]. apply digit_here_Some in Ed as [Hd [post ->]].
    exists l, "", post. unfold accidental_ok. auto. }
  destruct rest as [|a rest']; [exact Hplain|].
  destruct (isAccidental a) eqn:Ea; [|exact Hplain].
  destruct (digit_here rest') as [d0|] eqn:Ed; [|exact Hplain].
  intros [= <- <-]. apply digit_here_Some in Ed as [Hd [post ->]].
  exists l, (String a ""), post.
  repeat split; auto using accidental_ok_cases.
Qed.

Lemma regex_match_cons (c : ascii) (s : string) :
  regex_match (String c s) =
  match match_here (String c s) with
  | Some m => Some m
  | None => regex_match s
  end.
Proof. reflexivity. Qed.

Lemma regex_match_sound (s : string) (m : string * ascii) :
  regex_match s = Some m -> contains_pitch s.
Proof.
  induction s as [|c s IH]; [discriminate|].
  rewrite regex_match_cons.
  destruct (match_here (String c s)) as [[note d]|] eqn:Eh.
  - intros _. apply match_here_sound in Eh
      as (l & acc & post & Hl & Ha & Hd & _ & Hs).
    exists "", (pitch_string l acc d), post. split; [|exact Hs].
    exists l, acc, d. auto.
  - intros H. destruct (IH H) as (pre & t & post & Ht & ->).
    exists (String c pre), t, post. split; [exact Ht|reflexivity].
Qed.

(** At a pitch token the pattern matches with the note name and the digit
    as its groups. *)
Lemma match_here_token (l d : ascii) (acc post : string) :
  isLetterAG l = true -> accidental_ok acc -> isDigit d = true ->
  match_here (pitch_string l acc d ++ post) = Some (String l acc, d).
Proof.
  intros Hl Ha Hd. unfold pitch_string. simpl. rewrite Hl.
  destruct Ha as [->|[->| ->]]; simpl; rewrite ?Hd; simpl.
  - rewrite (digit_not_accidental d Hd). reflexivity.
  - reflexivity.
  - reflexivity.
Qed.

Lemma regex_match_complete (s : string) :
  contains_pitch s -> regex_match s <> None.
Proof.
  intros (pre & t & post & (l & acc & d & Hl & Ha & Hd & ->) & ->).
  induction pre as [|c pre IH].
  - pose proof (match_here_token l d acc post Hl Ha Hd) as H.
    unfold pitch_string in H |- *. cbn [append] in H |- *.
    rewrite regex_match_cons, H. discriminate.
  - change (String c pre ++ pitch_string l acc d ++ post)
      with (String c (pre ++ pitch_string l acc d ++ post)).
    rewrite regex_match_cons.
    destruct (match_here (String c (pre ++ pitch_string l acc d ++ post)));
      [discriminate|exact IH].
Qed.

Lemma regex_match_pitch_string (l d : ascii) (acc : string) :
  isLetterAG l = true -> accidental_ok acc -> isDigit d = true ->
  regex_match (pitch_string l acc d) = Some (String l acc, d).
Proof.
  intros Hl Ha Hd.
  pose proof (match_here_token l d acc "" Hl Ha Hd) as H.
  assert (E : pitch_string l acc d ++ "" = pitch_string l acc d).
  { unfold pitch_string. simpl. f_equal.
    destruct Ha as [->|[->| ->]]; reflexivity. }
  rewrite E in H. unfold pitch_string in *.
  rewrite regex_match_cons, H. reflexivity.
Qed.

(** What the code computes on a pitch string: the table entry of the note
    name, without the shift by nine semitones, or [NaN] when the table has
    no such name. *)
Lemma getFrequency_pitch_string (l d : ascii) (acc : string) :
  isLetterAG l = true -> accidental_ok acc -> isDigit d = true ->
  getFrequency (pitch_string l acc d) =
  match notes (String l acc) with
  | Some n => Num (440 * Rpower 2 (IZR (semitones n (parseInt d)) / 12))
  | None => NaN
  end.
Proof.
  intros Hl Ha Hd. unfold getFrequency.
  rewrite (regex_match_pitch_string l d acc Hl Ha Hd). reflexivity.
Qed.

Lemma Rpower_2_gt_1 (x : R) : (0 < x)%R -> (1 < Rpower 2 x)%R.
Proof.
  intros Hx. rewrite <- (Rpower_O 2) by lra.
  apply Rpower_lt; lra.
Qed.

Lemma Rpower_2_octave (z : Z) :
  Rpower 2 (IZR (z + 12) / 12) = (2 * Rpower 2 (IZR z / 12))%R.
Proof.
  rewrite plus_IZR.
  replace ((IZR z + 12) / 12)%R with (IZR z / 12 + 1)%R by field.
  rewrite Rpower_plus, Rpower_1 by lra. ring.
Qed.

End PitchFacts.

Section PitchClaims.

Import Pitch.

(** X3: on a name the table holds, one octave up doubles the frequency and
    any higher octave gives a strictly higher frequency. *)
Lemma getFrequency_octave_table (l d d' : ascii) (acc : string) (n : Z) :
  isLetterAG l = true -> accidental_ok acc ->
  isDigit d = true -> isDigit d' = true ->
  notes (String l acc) = Some n ->
  ((parseInt d' = parseInt d + 1)%Z ->
   num_double (getFrequency (pitch_string l acc d))
              (getFrequency (pitch_string l acc d'))) /\
  ((parseInt d < parseInt d')%Z ->
   num_lt (getFrequency (pitch_string l acc d))
          (getFrequency (pitch_string l acc d'))).
Proof.
  intros Hl Ha Hd Hd' Hn.
  rewrite !getFrequency_pitch_string, Hn by assumption.
  unfold num_double, num_lt, semitones. split.
  - intros ->.
    replace (n + (parseInt d + 1 - 4) * 12)%Z
      with (n + (parseInt d - 4) * 12 + 12)%Z by ring.
    rewrite Rpower_2_octave. ring.
  - intros Hlt. apply Rmult_lt_compat_l; [lra|].
    apply Rpower_lt; [lra|].
    apply Rmult_lt_compat_r; [lra|]. apply IZR_lt. lia.
Qed.

(** C1: at the pitch "A4" the resolver does not return 440 Hz.  The table
    entry of A is 9 and the code adds it without subtracting 9, so the
    result is 440 * 2^(9/12), strictly above 440, where the stated formula
    gives exactly 440. *)
Theorem getFrequency_A4_off_by_nine_semitones :
  getFrequency "A4" = Num (440 * Rpower 2 (9 / 12)) /\
  getFrequency "A4" <> Num 440 /\
  spec_frequency 9 4 = 440%R.
Proof.
  assert (E : getFrequency "A4" = Num (440 * Rpower 2 (9 / 12))).
  { change "A4" with (pitch_string "A" "" "4").
    rewrite (getFrequency_pitch_string "A" "4" "")
      by (reflexivity || (left; reflexivity)).
    reflexivity. }
  split; [exact E|]. split.
  - rewrite E. intros [= H].
    pose proof (Rpower_2_gt_1 (9 / 12) ltac:(lra)). lra.
  - unfold spec_frequency.
    replace (IZR (9 - 9 + (4 - 4) * 12) / 12)%R with 0%R
      by (simpl; lra).
    rewrite Rpower_O by lra. lra.
Qed.

(** C3: a string with no substring of the shape letter A-G, optional # or
    b, digit resolves to exactly 440; the resolver is a total function, so
    no error is raised. *)
Theorem getFrequency_unparseable (s : string) :
  ~ contains_pitch s -> getFrequency s = Num 440.
Proof.
  intros Hs. unfold getFrequency.
  destruct (regex_match s) as [m|] eqn:E; [|reflexivity].
  exfalso. apply Hs. exact (regex_match_sound s m E).
Qed.

Lemma getFrequency_unparseable_witness :
  ~ contains_pitch "H#9 b4" /\ getFrequency "H#9 b4" = Num 440.
Proof.
  assert (H : ~ contains_pitch "H#9 b4").
  { intros Hc. apply regex_match_complete in Hc. apply Hc. reflexivity. }
  split; [exact H|]. apply (getFrequency_unparseable "H#9 b4"). exact H.
Defined.

(** C7: the pitch strings "Cb4" and "Cb5" match the pattern, but the table
    has no entry Cb: both resolve to [NaN], so the frequency neither grows
    with the octave nor doubles. *)
Theorem getFrequency_Cb_not_increasing :
  getFrequency "Cb4" = NaN /\ getFrequency "Cb5" = NaN /\
  ~ num_lt (getFrequency "Cb4") (getFrequency "Cb5") /\
  ~ num_double (getFrequency "Cb4") (getFrequency "Cb5").
Proof.
  assert (E4 : getFrequency "Cb4" = NaN) by reflexivity.
  assert (E5 : getFrequency "Cb5" = NaN) by reflexivity.
  rewrite E4, E5. simpl. tauto.
Qed.

End PitchClaims.

(** ** Vocal playback adapter *)

Section VocalFacts.

Import Vocal.

Example atob_Man : atob "TWFu" = Some "Man".
Proof. reflexivity. Qed.

Example atob_padded : atob "TWE=" = Some "Ma" /\ atob "TQ==" = Some "M".
Proof. split; reflexivity. Qed.

Example atob_whitespace_unpadded : atob " T W E " = Some "Ma".
Proof. reflexivity. Qed.

Example atob_bad_length : atob "TWFuT" = None.
Proof. reflexivity. Qed.

Variable AudioBuffer : Type.
Variable decodeAudioData : list N -> option AudioBuffer.

(** Inside the [try] block nothing escapes: once [atob] has returned,
    the promise resolves, with the source started when the data decodes and
    with the warning alone when it does not. *)
Lemma playVocalBuffer_after_atob (base64 binaryString : string) (t : R) :
  atob base64 = Some binaryString ->
  (forall buffer, decodeAudioData (toBytes binaryString) = Some buffer ->
     playVocalBuffer AudioBuffer decodeAudioData base64 t
     = Resolved [SourceStart buffer t]) /\
  (decodeAudioData (toBytes binaryString) = None ->
     playVocalBuffer AudioBuffer decodeAudioData base64 t
     = Resolved [ConsoleWarn "Could not decode vocal buffer."]).
Proof.
  intros E. unfold playVocalBuffer. rewrite E. split.
  - intros buffer ->. reflexivity.
  - intros ->. reflexivity.
Qed.

(** C9: on the payload "!", which is not base64, [atob] throws before the
    [try] block is entered: whatever the audio decoder does, the promise of
    [playVocalBuffer] rejects with the exception and no warning is
    logged. *)
Theorem playVocalBuffer_invalid_base64_rejects (t : R) :
  atob "!" = None /\
  playVocalBuffer AudioBuffer decodeAudioData "!" t
  = Rejected "InvalidCharacterError".
Proof. split; reflexivity. Qed.

End VocalFacts.

(** ** Measure arranger *)

Section ArrangerFacts.

Import Score App.
Local Open Scope list_scope.
Local Open Scope R_scope.

Lemma melodyLoop_length inst b st off ns :
  List.length (melodyLoop inst b st off ns) = List.length ns.
Proof.
  revert off. induction ns as [|n ns IH]; intros off; simpl; [reflexivity|].
  now rewrite IH.
Qed.

(** The k-th call of the melody loop: the running offset is the offset on
    entry plus the beats of the notes before, times the beat duration. *)
Lemma melodyLoop_nth inst b st ns : forall off k note,
  nth_error ns k = Some note ->
  nth_error (melodyLoop inst b st off ns) k =
  Some (PlayNote (pitch note) (duration note * b) inst
          (st + (off + sumDurations (firstn k ns) * b))).
Proof.
  induction ns as [|n ns IH]; intros off k note Hk.
  - destruct k; discriminate.
  - destruct k as [|k]; simpl in *.
    + injection Hk as <-. do 2 f_equal. ring.
    + rewrite (IH _ _ _ Hk). do 3 f_equal. ring.
Qed.

Lemma melodyLoop_filter inst b st off ns :
  inst = PIANO \/ inst = GUITAR ->
  melodyCalls (melodyLoop inst b st off ns) = melodyLoop inst b st off ns /\
  bassCalls (melodyLoop inst b st off ns) = [] /\
  forall ty, drumTimes ty (melodyLoop inst b st off ns) = [].
Proof.
  intros Hi. revert off.
  induction ns as [|n ns IH]; intros off; simpl; [auto|].
  destruct (IH (off + duration n * b)) as (IH1 & IH2 & IH3).
  unfold melodyCalls, bassCalls in *.
  destruct Hi as [-> | ->]; simpl; rewrite IH1, IH2; auto.
Qed.

Lemma bassLoop_length cd st i cs :
  List.length (bassLoop cd st i cs) = List.length cs.
Proof.
  revert i. induction cs as [|c cs IH]; intros i; simpl; [reflexivity|].
  now rewrite IH.
Qed.

Lemma bassLoop_nth cd st cs : forall i k chord,
  nth_error cs k = Some chord ->
  nth_error (bassLoop cd st i cs) k =
  Some (PlayNote (charAt0 chord ++ "2")%string cd BASS
          (st + INR (i + k) * cd)).
Proof.
  induction cs as [|c cs IH]; intros i k chord Hk.
  - destruct k; discriminate.
  - destruct k as [|k]; simpl in *.
    + injection Hk as <-. now rewrite Nat.add_0_r.
    + rewrite (IH _ _ _ Hk). now rewrite Nat.add_succ_r.
Qed.

Lemma bassLoop_filter cd st i cs :
  melodyCalls (bassLoop cd st i cs) = [] /\
  bassCalls (bassLoop cd st i cs) = bassLoop cd st i cs /\
  forall ty, drumTimes ty (bassLoop cd st i cs) = [].
Proof.
  revert i. induction cs as [|c cs IH]; intros i; simpl; [auto|].
  destruct (IH (S i)) as (IH1 & IH2 & IH3).
  unfold melodyCalls, bassCalls in *. simpl. rewrite IH2. auto.
Qed.

Lemma bassLoop_toneSeconds cd st i cs :
  toneSeconds (bassLoop cd st i cs) = INR (List.length cs) * cd.
Proof.
  revert i. induction cs as [|c cs IH]; intros i.
  - simpl. ring.
  - cbn [bassLoop toneSeconds List.length]. rewrite IH, S_INR. ring.
Qed.

Lemma drumPart_filter sel b st :
  melodyCalls (drumPart sel b st) = [] /\ bassCalls (drumPart sel b st) = [].
Proof.
  unfold drumPart. destruct (has sel DRUMS); split; reflexivity.
Qed.

Lemma vocalPart_filter sel vocals index st :
  melodyCalls (vocalPart sel vocals index st) = [] /\
  bassCalls (vocalPart sel vocals index st) = [] /\
  forall ty, drumTimes ty (vocalPart sel vocals index st) = [].
Proof.
  unfold vocalPart. destruct (vocals index) as [[|c p]|]; auto.
  destruct (has sel MALE_VOCAL || has sel FEMALE_VOCAL); auto.
Qed.

Lemma drumTimes_app ty cs cs' :
  drumTimes ty (cs ++ cs') = drumTimes ty cs ++ drumTimes ty cs'.
Proof.
  induction cs as [|c cs IH]; simpl; [reflexivity|].
  destruct c as [p d i t|ty' t|p t]; auto.
  destruct (DrumType_eqb ty ty'); simpl; now rewrite IH.
Qed.

Lemma melodyPart_filter sel b st m :
  melodyCalls (melodyPart sel b st m) = melodyPart sel b st m /\
  bassCalls (melodyPart sel b st m) = [] /\
  forall ty, drumTimes ty (melodyPart sel b st m) = [].
Proof.
  unfold melodyPart. destruct (has sel PIANO || has sel GUITAR); [|auto].
  apply melodyLoop_filter. destruct (has sel PIANO); auto.
Qed.

Lemma bassPart_filter sel b st m :
  melodyCalls (bassPart sel b st m) = [] /\
  bassCalls (bassPart sel b st m) = bassPart sel b st m /\
  forall ty, drumTimes ty (bassPart sel b st m) = [].
Proof.
  unfold bassPart.
  destruct (has sel BASS && (0 <? List.length (chords m))%nat); [|auto].
  apply bassLoop_filter.
Qed.

Lemma melodyCalls_app cs cs' :
  melodyCalls (cs ++ cs') = melodyCalls cs ++ melodyCalls cs'.
Proof. apply filter_app. Qed.

Lemma bassCalls_app cs cs' :
  bassCalls (cs ++ cs') = bassCalls cs ++ bassCalls cs'.
Proof. apply filter_app. Qed.

(** The melody calls of a measure are those of its melody part. *)
Lemma arrange_melodyCalls sel vocals tempo index st m :
  melodyCalls (arrange sel vocals tempo index st m)
  = melodyPart sel (60 / tempo) st m.
Proof.
  unfold arrange. rewrite !melodyCalls_app.
  destruct (melodyPart_filter sel (60 / tempo) st m) as (-> & _).
  destruct (bassPart_filter sel (60 / tempo) st m) as (-> & _).
  destruct (drumPart_filter sel (60 / tempo) st) as (-> & _).
  destruct (vocalPart_filter sel vocals index st) as (-> & _).
  now rewrite !app_nil_r.
Qed.

(** The bass calls of a measure are those of its bass part. *)
Lemma arrange_bassCalls sel vocals tempo index st m :
  bassCalls (arrange sel vocals tempo index st m)
  = bassPart sel (60 / tempo) st m.
Proof.
  unfold arrange. rewrite !bassCalls_app.
  destruct (melodyPart_filter sel (60 / tempo) st m) as (_ & -> & _).
  destruct (bassPart_filter sel (60 / tempo) st m) as (_ & -> & _).
  destruct (drumPart_filter sel (60 / tempo) st) as (_ & ->).
  destruct (vocalPart_filter sel vocals index st) as (_ & -> & _).
  now rewrite !app_nil_r.
Qed.

(** The drum hits of a measure are those of its drum part. *)
Lemma arrange_drumTimes ty sel vocals tempo index st m :
  drumTimes ty (arrange sel vocals tempo index st m)
  = drumTimes ty (drumPart sel (60 / tempo) st).
Proof.
  unfold arrange. rewrite !drumTimes_app.
  destruct (melodyPart_filter sel (60 / tempo) st m) as (_ & _ & ->).
  destruct (bassPart_filter sel (60 / tempo) st m) as (_ & _ & ->).
  destruct (vocalPart_filter sel vocals index st) as (_ & _ & ->).
  now rewrite app_nil_r.
Qed.

End ArrangerFacts.

Section ArrangerClaims.

Import Score App.
Local Open Scope list_scope.
Local Open Scope R_scope.

Lemma sumDurations_firstn_S ns : forall k note,
  nth_error ns k = Some note ->
  sumDurations (firstn (S k) ns)
  = sumDurations (firstn k ns) + duration note.
Proof.
  induction ns as [|n ns IH]; intros k note Hk.
  - destruct k; discriminate.
  - destruct k as [|k].
    + injection Hk as <-. simpl. ring.
    + change (firstn (S (S k)) (n :: ns)) with (n :: firstn (S k) ns).
      change (firstn (S k) (n :: ns)) with (n :: firstn k ns).
      cbn [sumDurations]. rewrite (IH k note Hk). ring.
Qed.

(** The scenario of the arranger: at tempo 120 with the piano selected the
    three notes start 0 s, 0.5 s and 1 s after the start of the measure and
    last 0.5 s, 0.5 s and 1 s. *)
Example arrange_scenario_tempo_120 (vocals : nat -> option string)
    (index : nat) (st : R) :
  melodyCalls (arrange [PIANO] vocals 120 index st scenarioMeasure)
  = [ PlayNote "C4" 0.5 PIANO (st + 0);
      PlayNote "E4" 0.5 PIANO (st + 0.5);
      PlayNote "G4" 1 PIANO (st + 1) ].
Proof.
  rewrite arrange_melodyCalls. unfold melodyPart. simpl.
  repeat (f_equal; try lra).
Qed.

(** The melody calls of a measure, when each call returns.  With the
    piano or the guitar selected, the arranger plays one tone
    per melody note; the k-th tone starts at the start of the measure plus
    the beats of the notes before it times the beat duration 60/tempo, and
    lasts the beats of its note times the beat duration, however long the
    melody is (nothing is cut at four beats); each tone starts exactly
    where the one before it stops, so no two overlap. *)
Theorem arrange_melody_sequential (sel : list InstrumentType)
    (vocals : nat -> option string) (tempo : R) (index : nat) (st : R)
    (m : Measure) :
  tempo <> 0 ->
  has sel PIANO || has sel GUITAR = true ->
  let beatSeconds := 60 / tempo in
  let inst := if has sel PIANO then PIANO else GUITAR in
  let calls := melodyCalls (arrange sel vocals tempo index st m) in
  List.length calls = List.length (melody m) /\
  (forall k note, nth_error (melody m) k = Some note ->
     nth_error calls k =
     Some (PlayNote (pitch note) (duration note * beatSeconds) inst
             (st + sumDurations (firstn k (melody m)) * beatSeconds))) /\
  (forall k p d i t p' d' i' t',
     nth_error calls k = Some (PlayNote p d i t) ->
     nth_error calls (S k) = Some (PlayNote p' d' i' t') ->
     t' = t + d).
Proof.
  intros _ Hsel beatSeconds inst calls.
  assert (Ecalls : calls = melodyLoop inst beatSeconds st 0 (melody m)).
  { unfold calls. rewrite arrange_melodyCalls. unfold melodyPart.
    now rewrite Hsel. }
  assert (Hnth : forall k note, nth_error (melody m) k = Some note ->
     nth_error calls k =
     Some (PlayNote (pitch note) (duration note * beatSeconds) inst
             (st + sumDurations (firstn k (melody m)) * beatSeconds))).
  { intros k note Hk. rewrite Ecalls, (melodyLoop_nth _ _ _ _ 0 k note Hk).
    do 3 f_equal. ring. }
  assert (Hlen : List.length calls = List.length (melody m)).
  { rewrite Ecalls. apply melodyLoop_length. }
  split; [exact Hlen|]. split; [exact Hnth|].
  intros k p d i t p' d' i' t' Hk HSk.
  destruct (nth_error (melody m) k) as [n|] eqn:En.
  2:{ apply nth_error_None in En. rewrite <- Hlen in En.
      apply nth_error_None in En. congruence. }
  destruct (nth_error (melody m) (S k)) as [n'|] eqn:En'.
  2:{ apply nth_error_None in En'. rewrite <- Hlen in En'.
      apply nth_error_None in En'. congruence. }
  rewrite (Hnth k n En) in Hk. rewrite (Hnth (S k) n' En') in HSk.
  injection Hk as _ <- _ <-. injection HSk as _ _ _ <-.
  change (st + sumDurations (firstn (S k) (melody m)) * beatSeconds
          = st + sumDurations (firstn k (melody m)) * beatSeconds
            + duration n * beatSeconds).
  rewrite (sumDurations_firstn_S _ _ _ En). ring.
Qed.

Lemma arrange_melody_sequential_witness :
  List.length (melodyCalls (arrange [GUITAR; DRUMS] (fun _ => None) 120 0 10
                                    scenarioMeasure)) = 3%nat.
Proof.
  exact (proj1 (arrange_melody_sequential [GUITAR; DRUMS] (fun _ => None)
                  120 0 10 scenarioMeasure ltac:(lra) eq_refl)).
Defined.

Lemma charAt0_root (c : ascii) (rest : string) :
  (charAt0 (String c rest) ++ "2")%string = String c "2".
Proof. reflexivity. Qed.

(** The bass calls of a measure, when each call returns.  With the bass
    selected and N > 0 chords, the arranger plays N bass
    tones; each lasts a slot of (4 * beatSeconds) / N, the i-th starts i
    slots after the start of the measure, its pitch is the first character
    of the chord followed by "2", and the durations of the N tones add up
    to 4 * beatSeconds. *)
Theorem arrange_bass_slots (sel : list InstrumentType)
    (vocals : nat -> option string) (tempo : R) (index : nat) (st : R)
    (m : Measure) :
  tempo <> 0 ->
  has sel BASS = true ->
  chords m <> [] ->
  let beatSeconds := 60 / tempo in
  let N := List.length (chords m) in
  let slot := (4 * beatSeconds) / INR N in
  let calls := bassCalls (arrange sel vocals tempo index st m) in
  List.length calls = N /\
  (forall i chord, nth_error (chords m) i = Some chord ->
     nth_error calls i =
     Some (PlayNote (charAt0 chord ++ "2")%string slot BASS
             (st + INR i * slot))) /\
  toneSeconds calls = 4 * beatSeconds.
Proof.
  intros _ Hsel Hne beatSeconds N slot calls.
  assert (HN : (0 < N)%nat).
  { unfold N. destruct (chords m); [congruence|simpl; lia]. }
  assert (Ecalls : calls = bassLoop slot st 0 (chords m)).
  { unfold calls. rewrite arrange_bassCalls. unfold bassPart.
    rewrite Hsel. fold N.
    destruct (Nat.ltb_spec 0 N) as [_|Hle]; [reflexivity|lia]. }
  rewrite Ecalls. split; [apply bassLoop_length|]. split.
  - intros i chord Hi. now rewrite (bassLoop_nth _ _ _ 0%nat i chord Hi).
  - rewrite bassLoop_toneSeconds. fold N. unfold slot.
    assert (INR N <> 0) by (apply not_0_INR; lia).
    field. assumption.
Qed.

Lemma arrange_bass_slots_witness :
  toneSeconds (bassCalls (arrange [PIANO; BASS] (fun _ => None) 90 0 10
                                  twoChordMeasure))
  = 4 * (60 / 90).
Proof.
  refine (proj2 (proj2 (arrange_bass_slots [PIANO; BASS] (fun _ => None)
                          90 0 10 twoChordMeasure ltac:(lra) eq_refl _))).
  discriminate.
Defined.

(** The drum calls of a measure, when each call returns.  With the drums
    selected, whatever the measure and its drumGroove,
    the arranger plays eight hi-hats, at every half beat k * 0.5 *
    beatSeconds for k = 0..7, two kicks, at 0 and 2 beats, and two snares,
    at 1 and 3 beats after the start of the measure. *)
Theorem arrange_drum_pattern (sel : list InstrumentType)
    (vocals : nat -> option string) (tempo : R) (index : nat) (st : R)
    (m : Measure) :
  tempo <> 0 ->
  has sel DRUMS = true ->
  let beatSeconds := 60 / tempo in
  let calls := arrange sel vocals tempo index st m in
  drumTimes hihat calls
  = map (fun k => st + INR k * 0.5 * beatSeconds) (seq 0 8) /\
  drumTimes kick calls = [st + 0 * beatSeconds; st + 2 * beatSeconds] /\
  drumTimes snare calls = [st + 1 * beatSeconds; st + 3 * beatSeconds] /\
  List.length (drumTimes hihat calls) = 8%nat /\
  List.length (drumTimes kick calls) = 2%nat /\
  List.length (drumTimes snare calls) = 2%nat.
Proof.
  intros _ Hsel beatSeconds calls. unfold calls.
  rewrite !arrange_drumTimes. fold beatSeconds. unfold drumPart.
  rewrite Hsel.
  cbn [flat_map seq drumStep app Nat.eqb orb drumTimes DrumType_eqb map
       List.length INR].
  repeat split; repeat (f_equal; try lra).
Qed.

Lemma arrange_drum_pattern_witness :
  drumTimes kick (arrange [DRUMS] (fun _ => None) 120 0 10 twoChordMeasure)
  = [10 + 0 * (60 / 120); 10 + 2 * (60 / 120)].
Proof.
  exact (proj1 (proj2 (arrange_drum_pattern [DRUMS] (fun _ => None) 120 0 10
                         twoChordMeasure ltac:(lra) eq_refl))).
Defined.

End ArrangerClaims.

(** ** Performance scheduler *)

Section SchedulerFacts.

Import Score App.
Local Open Scope list_scope.
Local Open Scope R_scope.

(** The effect while playing a measure that exists: the measure is arranged
    at the anchor with the tempo of this render, and the timeout is armed
    for one measure at that tempo. *)
Lemma runEffect_playing (now : R) (s : AppState) (sc : ScoreData)
    (m : Measure) :
  isPlaying s = true ->
  score s = Some sc ->
  nth_error (measures sc) (currentMeasureIndex s) = Some m ->
  runEffect now s =
  Some (mkApp (score s) (isPlaying s) (tempo s) (selectedInstruments s)
          (currentMeasureIndex s) (vocalAudioMap s)
          (Some (mkTimeout (4 * (60 / tempo s) * 1000) (4 * (60 / tempo s))
                           (List.length (measures sc))))
          (anchorAt now s)
          (audio s ++ arrange (selectedInstruments s) (vocalAudioMap s)
                              (tempo s) (currentMeasureIndex s)
                              (anchorAt now s) m)).
Proof.
  destruct s as [sc0 playing t sel index vocals timer anchor calls].
  cbn [isPlaying score currentMeasureIndex]. intros -> -> Hm.
  unfold runEffect, playMeasure, set_timer, set_audio, set_anchor, anchorAt.
  cbn [isPlaying score currentMeasureIndex selectedInstruments tempo
       vocalAudioMap playbackTimerRef measureStartTimeRef audio].
  rewrite Hm. reflexivity.
Qed.

(** The effect while stopped only clears the timeout. *)
Lemma runEffect_stopped (now : R) (s : AppState) :
  isPlaying s = false -> runEffect now s = Some (set_timer None s).
Proof. intros Hp. unfold runEffect. cbn. now rewrite Hp. Qed.

Lemma depsChanged_tempo (i : Input) (old new : AppState) :
  tempo old <> tempo new -> depsChanged i old new = true.
Proof.
  intros Ht. unfold depsChanged.
  destruct (Req_dec_T (tempo old) (tempo new)) as [E|_]; [contradiction|].
  now rewrite !orb_true_r.
Qed.

Lemma depsChanged_same (i : Input) (old new : AppState) :
  isPlaying old = isPlaying new ->
  currentMeasureIndex old = currentMeasureIndex new ->
  tempo old = tempo new ->
  (forall j, i <> ToggleInstrument j) ->
  depsChanged i old new = false.
Proof.
  intros Hp Hi Ht Hj. unfold depsChanged.
  rewrite Hp, Hi, Nat.eqb_refl, eqb_reflx.
  destruct (Req_dec_T (tempo old) (tempo new)) as [_|N]; [|contradiction].
  destruct i; try reflexivity. now destruct (Hj i).
Qed.

(** No input changes the tempo except the two tempo buttons. *)
Lemma handle_tempo (i : Input) (s : AppState) :
  tempo (handle i s) =
  match i with
  | TempoMinus => tempoMinus (tempo s)
  | TempoPlus => tempoPlus (tempo s)
  | _ => tempo s
  end.
Proof.
  destruct i; try reflexivity.
  - simpl. destruct (playbackTimerRef s) as [t|]; [|reflexivity].
    unfold timerCallback. now destruct (_ <=? _)%nat.
  - simpl. now destruct (isPlaying s).
Qed.

Lemma runEffect_tempo (now : R) (s s' : AppState) :
  runEffect now s = Some s' -> tempo s' = tempo s.
Proof.
  unfold runEffect. cbn.
  destruct (isPlaying s); [|now intros [= <-]].
  destruct (score s) as [sc|]; [|now intros [= <-]].
  destruct (playMeasure _ _ _); [|discriminate].
  now intros [= <-].
Qed.

Lemma step_tempo (now : R) (i : Input) (s s' : AppState) :
  step now i s = Some s' -> tempo s' = tempo (handle i s).
Proof.
  unfold step. destruct (depsChanged i s (handle i s)).
  - apply runEffect_tempo.
  - now intros [= <-].
Qed.

Lemma tempo_buttons_range (t : R) :
  40 <= t <= 240 ->
  40 <= tempoMinus t <= 240 /\ 40 <= tempoPlus t <= 240.
Proof.
  intros Ht. unfold tempoMinus, tempoPlus, Rmax, Rmin.
  destruct (Rle_dec 40 (t - 5)), (Rle_dec 240 (t + 5)); lra.
Qed.

Lemma run_tempo_range (ins : list (R * Input)) : forall s s',
  40 <= tempo s <= 240 -> run ins s = Some s' -> 40 <= tempo s' <= 240.
Proof.
  induction ins as [|[now i] ins IH]; intros s s' Ht; simpl.
  - now intros [= <-].
  - destruct (step now i s) as [s1|] eqn:E; [|discriminate].
    apply IH. rewrite (step_tempo _ _ _ _ E), handle_tempo.
    destruct (tempo_buttons_range _ Ht). destruct i; assumption.
Qed.

Lemma runEffect_timerConsistent (now : R) (s s' : AppState) :
  runEffect now s = Some s' -> timerConsistent s'.
Proof.
  unfold runEffect.
  cbn [isPlaying score set_timer currentMeasureIndex audio].
  destruct (isPlaying s) eqn:Hp.
  2:{ intros [= <-] t. discriminate. }
  destruct (score s) as [sc|] eqn:Hs.
  2:{ intros [= <-] t. discriminate. }
  destruct (playMeasure _ _ _) as [calls|]; [|discriminate].
  intros [= <-] t. cbn. intros [= <-]. cbn.
  split; [exact Hp|]. exists sc. split; [exact Hs|reflexivity].
Qed.

(** Every step keeps the pending timeout consistent with the playback. *)
Lemma step_timerConsistent (now : R) (i : Input) (s s' : AppState) :
  timerConsistent s -> step now i s = Some s' -> timerConsistent s'.
Proof.
  intros Hc. unfold step.
  destruct (depsChanged i s (handle i s)) eqn:Hd.
  { apply runEffect_timerConsistent. }
  intros [= <-]. unfold depsChanged in Hd.
  apply orb_false_iff in Hd as [Hd Hi].
  apply orb_false_iff in Hd as [Hd Ht].
  apply orb_false_iff in Hd as [Hp Hx].
  apply negb_false_iff, eqb_prop in Hp.
  destruct i; try discriminate.
  - cbn [handle] in *. destruct (playbackTimerRef s) as [t|] eqn:E.
    + intros t'. unfold timerCallback.
      destruct (_ <=? _)%nat; cbn; intros [=].
    + exact Hc.
  - exact Hc.
  - exact Hc.
  - cbn [handle] in Hp. destruct (isPlaying s) eqn:E; cbn in Hp;
      rewrite ?E in Hp; discriminate.
  - cbn [handle isPlaying set_anchor set_index set_isPlaying] in Hp.
    intros t Ht'. cbn in Ht'. destruct (Hc t Ht') as [Hp' _]. congruence.
Qed.

End SchedulerFacts.

Section SchedulerClaims.

Import Score App.
Local Open Scope list_scope.
Local Open Scope R_scope.

(** A tempo button that changes the tempo while a measure that exists is
    playing: the effect runs again at once with the new tempo. *)
Lemma step_tempo_button (now : R) (i : Input) (s : AppState)
    (sc : ScoreData) (m : Measure) :
  isPlaying s = true ->
  score s = Some sc ->
  nth_error (measures sc) (currentMeasureIndex s) = Some m ->
  i = TempoMinus \/ i = TempoPlus ->
  tempo (handle i s) <> tempo s ->
  step now i s =
  Some (mkApp (score s) true (tempo (handle i s)) (selectedInstruments s)
          (currentMeasureIndex s) (vocalAudioMap s)
          (Some (mkTimeout (4 * (60 / tempo (handle i s)) * 1000)
                           (4 * (60 / tempo (handle i s)))
                           (List.length (measures sc))))
          (anchorAt now s)
          (audio s ++ arrange (selectedInstruments s) (vocalAudioMap s)
                              (tempo (handle i s)) (currentMeasureIndex s)
                              (anchorAt now s) m)).
Proof.
  intros Hp Hs Hm Hi Hne. unfold step.
  rewrite depsChanged_tempo by (intros E; apply Hne; now rewrite E).
  assert (Hp' : isPlaying (handle i s) = true)
    by (destruct Hi as [-> | ->]; exact Hp).
  assert (Hs' : score (handle i s) = Some sc)
    by (destruct Hi as [-> | ->]; exact Hs).
  assert (Hm' : nth_error (measures sc) (currentMeasureIndex (handle i s))
                = Some m) by (destruct Hi as [-> | ->]; exact Hm).
  rewrite (runEffect_playing now (handle i s) sc m Hp' Hs' Hm').
  rewrite Hp'. destruct Hi as [-> | ->]; reflexivity.
Qed.

Lemma tempoPlus_90 : tempoPlus 90 = 95.
Proof. unfold tempoPlus, Rmin. destruct (Rle_dec 240 (90 + 5)); lra. Qed.

(** C2, as stated, fails: at tempo 90 with the second of ten measures
    armed, pressing the tempo-up button arms a new timeout whose delay is
    that of a measure at tempo 95, and the calls of the measure are issued
    again; neither the timeout nor the scheduled calls are left as they
    were. *)
Lemma tempo_change_not_deferred :
  armed armedState /\
  exists s',
    step 3 TempoPlus armedState = Some s' /\
    option_map delay_ms (playbackTimerRef s') = Some (4 * (60 / 95) * 1000) /\
    playbackTimerRef s' <> playbackTimerRef armedState /\
    audio s' <> audio armedState.
Proof.
  split; [split; [reflexivity|discriminate]|].
  assert (Hne : tempo (handle TempoPlus armedState) <> tempo armedState).
  { cbn. rewrite tempoPlus_90. lra. }
  eexists. split.
  - exact (step_tempo_button 3 TempoPlus armedState tenMeasures
             scenarioMeasure eq_refl eq_refl eq_refl (or_intror eq_refl) Hne).
  - cbn [playbackTimerRef option_map delay_ms audio handle set_tempo tempo
         armedState].
    rewrite tempoPlus_90. split; [reflexivity|]. split.
    + intros [= H]. lra.
    + discriminate.
Qed.

(** C2, amended: a tempo button that changes the tempo while a measure is
    armed takes effect at once.  The measure index and the start anchor of
    the armed measure stay as they are, but the pending timeout is replaced
    by one whose delay is that of a measure at the new tempo, 4 * 60 /
    tempo seconds, and the measure is arranged again, with the new tempo,
    at the same anchor. *)
Theorem tempo_change_rearms_measure (now : R) (i : Input) (s : AppState)
    (sc : ScoreData) (m : Measure) :
  armed s ->
  score s = Some sc ->
  nth_error (measures sc) (currentMeasureIndex s) = Some m ->
  measureStartTimeRef s <> 0 ->
  0 < tempo s ->
  i = TempoMinus \/ i = TempoPlus ->
  let newTempo := tempo (handle i s) in
  newTempo <> tempo s ->
  exists s',
    step now i s = Some s' /\
    tempo s' = newTempo /\
    isPlaying s' = true /\
    currentMeasureIndex s' = currentMeasureIndex s /\
    measureStartTimeRef s' = measureStartTimeRef s /\
    playbackTimerRef s' =
      Some (mkTimeout (4 * (60 / newTempo) * 1000) (4 * (60 / newTempo))
                      (List.length (measures sc))) /\
    audio s' =
      audio s ++ arrange (selectedInstruments s) (vocalAudioMap s) newTempo
                         (currentMeasureIndex s) (measureStartTimeRef s) m.
Proof.
  intros [Hp _] Hs Hm Ha _ Hi newTempo Hne.
  assert (Hanchor : anchorAt now s = measureStartTimeRef s).
  { unfold anchorAt. destruct (Req_dec_T (measureStartTimeRef s) 0);
      [contradiction|reflexivity]. }
  eexists. split; [exact (step_tempo_button now i s sc m Hp Hs Hm Hi Hne)|].
  cbn [tempo isPlaying currentMeasureIndex measureStartTimeRef
       playbackTimerRef audio].
  rewrite Hanchor. repeat split; reflexivity.
Qed.

Lemma tempo_change_rearms_measure_witness :
  exists s',
    step 3 TempoMinus armedState = Some s' /\
    tempo s' = tempo (handle TempoMinus armedState) /\
    isPlaying s' = true /\
    currentMeasureIndex s' = 1%nat /\
    measureStartTimeRef s' = 2.5 /\
    playbackTimerRef s' =
      Some (mkTimeout (4 * (60 / tempo (handle TempoMinus armedState)) * 1000)
                      (4 * (60 / tempo (handle TempoMinus armedState))) 10) /\
    audio s' =
      [] ++ arrange [PIANO; DRUMS] (fun _ => None)
                    (tempo (handle TempoMinus armedState)) 1 2.5
                    scenarioMeasure.
Proof.
  refine (tempo_change_rearms_measure 3 TempoMinus armedState tenMeasures
            scenarioMeasure (conj eq_refl _) eq_refl eq_refl _ _
            (or_introl eq_refl) _).
  - discriminate.
  - cbn. lra.
  - cbn. lra.
  - cbn. unfold tempoMinus, Rmax. destruct (Rle_dec 40 (90 - 5)); lra.
Defined.

(** A tempo button pressed at its clamp leaves the tempo as it is, and then
    nothing else changes: the effect does not run again. *)
Lemma tempo_button_at_clamp (now : R) (i : Input) (s : AppState) :
  i = TempoMinus \/ i = TempoPlus ->
  tempo (handle i s) = tempo s ->
  step now i s = Some (handle i s) /\
  playbackTimerRef (handle i s) = playbackTimerRef s /\
  audio (handle i s) = audio s.
Proof.
  intros Hi Ht. unfold step.
  rewrite depsChanged_same;
    try (destruct Hi as [-> | ->]; (reflexivity || discriminate)).
  - destruct Hi as [-> | ->]; repeat split.
  - now rewrite Ht.
Qed.

(** C8: when the timeout fires while the last measure is playing (the next
    index would reach the number of measures M), playback stops and the
    measure index is back at 0; no timeout is armed and no call is made on
    the audio engine, so playback neither continues nor repeats. *)
Theorem timer_fires_at_last_measure (now : R) (s : AppState)
    (sc : ScoreData) (t : Timeout) :
  isPlaying s = true ->
  score s = Some sc ->
  playbackTimerRef s = Some t ->
  measureCount t = List.length (measures sc) ->
  (List.length (measures sc) <= currentMeasureIndex s + 1)%nat ->
  exists s',
    step now TimerFires s = Some s' /\
    isPlaying s' = false /\
    currentMeasureIndex s' = 0%nat /\
    playbackTimerRef s' = None /\
    audio s' = audio s.
Proof.
  intros Hp Hs Ht Hc Hlast.
  assert (Hh : handle TimerFires s =
               set_index 0 (set_isPlaying false
                 (set_anchor (measureStartTimeRef s + measureDuration t)
                             (set_timer None s)))).
  { cbn [handle]. rewrite Ht. unfold timerCallback.
    cbn [currentMeasureIndex set_anchor set_timer]. rewrite Hc.
    destruct (Nat.leb_spec (List.length (measures sc))
                           (currentMeasureIndex s + 1)); [reflexivity|lia]. }
  unfold step. rewrite Hh.
  assert (Hd : depsChanged TimerFires s
                 (set_index 0 (set_isPlaying false
                    (set_anchor (measureStartTimeRef s + measureDuration t)
                                (set_timer None s)))) = true).
  { unfold depsChanged. cbn [isPlaying set_index set_isPlaying].
    rewrite Hp. reflexivity. }
  rewrite Hd, runEffect_stopped by reflexivity.
  eexists. split; [reflexivity|]. repeat split.
Qed.

Lemma timer_fires_at_last_measure_witness :
  exists s',
    step 10 TimerFires lastMeasureState = Some s' /\
    isPlaying s' = false /\
    currentMeasureIndex s' = 0%nat /\
    playbackTimerRef s' = None /\
    audio s' = [].
Proof.
  refine (timer_fires_at_last_measure 10 lastMeasureState fourMeasures _
            eq_refl eq_refl eq_refl eq_refl _).
  cbn. lia.
Defined.

(** Before the last measure the timeout moves on to the next measure and
    playback goes on. *)
Lemma timer_fires_before_last_measure (s : AppState) (t : Timeout) :
  playbackTimerRef s = Some t ->
  (currentMeasureIndex s + 1 < measureCount t)%nat ->
  isPlaying (handle TimerFires s) = isPlaying s /\
  currentMeasureIndex (handle TimerFires s) = (currentMeasureIndex s + 1)%nat /\
  measureStartTimeRef (handle TimerFires s)
  = measureStartTimeRef s + measureDuration t.
Proof.
  intros Ht Hlt. cbn [handle]. rewrite Ht. unfold timerCallback.
  cbn [currentMeasureIndex set_anchor set_timer].
  destruct (Nat.leb_spec (measureCount t) (currentMeasureIndex s + 1));
    [lia|]. repeat split.
Qed.

(** C10: from a tempo in [40, 240], whatever the user and the clock do, the
    tempo stays in [40, 240]: the tempo-down button gives max(40, tempo -
    5), the tempo-up button gives min(240, tempo + 5), and no other input
    changes the tempo. *)
Theorem tempo_stays_in_range (s : AppState) (ins : list (R * Input))
    (s' : AppState) :
  40 <= tempo s <= 240 ->
  run ins s = Some s' ->
  40 <= tempo s' <= 240 /\
  tempo (handle TempoMinus s') = Rmax 40 (tempo s' - 5) /\
  tempo (handle TempoPlus s') = Rmin 240 (tempo s' + 5) /\
  40 <= tempo (handle TempoMinus s') <= 240 /\
  40 <= tempo (handle TempoPlus s') <= 240 /\
  (forall i, i <> TempoMinus -> i <> TempoPlus ->
     tempo (handle i s') = tempo s').
Proof.
  intros Ht Hrun.
  pose proof (run_tempo_range ins s s' Ht Hrun) as Ht'.
  destruct (tempo_buttons_range _ Ht') as [Hm Hp].
  split; [exact Ht'|]. split; [reflexivity|]. split; [reflexivity|].
  split; [exact Hm|]. split; [exact Hp|].
  intros i Hi1 Hi2. rewrite handle_tempo. destruct i; congruence.
Qed.

Lemma tempo_stays_in_range_witness :
  40 <= tempo (set_tempo (tempoPlus (tempoPlus 238)) idleState) <= 240.
Proof.
  refine (proj1 (tempo_stays_in_range idleState
                   [(0, TempoPlus); (1, TempoPlus)] _ _ _)).
  - cbn. lra.
  - unfold run, step.
    destruct (depsChanged TempoPlus idleState (handle TempoPlus idleState));
      cbn [handle runEffect idleState tempo set_tempo set_timer isPlaying
           score selectedInstruments currentMeasureIndex vocalAudioMap
           playbackTimerRef measureStartTimeRef audio];
      match goal with
      | |- match (if ?c then _ else _) with _ => _ end = _ => destruct c
      end; reflexivity.
Defined.

End SchedulerClaims.

(** * Further properties of the code *)

(** ** Pitch resolver *)

Section PitchMore.

Import Pitch.

Lemma isLetterAG_cases (c : ascii) :
  isLetterAG c = true ->
  c = "A"%char \/ c = "B"%char \/ c = "C"%char \/ c = "D"%char \/
  c = "E"%char \/ c = "F"%char \/ c = "G"%char.
Proof.
  destruct c as [[] [] [] [] [] [] [] []]; try discriminate; tauto.
Qed.

Lemma parseInt_digit (d : ascii) :
  isDigit d = true -> (0 <= parseInt d <= 9)%Z.
Proof.
  unfold isDigit, code_between, parseInt. intros H.
  apply andb_prop in H as [H1 H2].
  apply Nat.leb_le in H1. apply Nat.leb_le in H2. lia.
Qed.

Lemma notes_range (note : string) (n : Z) :
  notes note = Some n -> (0 <= n <= 11)%Z.
Proof.
  unfold notes, notes_table, assoc.
  repeat match goal with
         | |- context [String.eqb ?a ?b] =>
             destruct (String.eqb a b); [intros [= <-]; lia|]
         end.
  discriminate.
Qed.

(** The groups of a match are a note name and a digit. *)
Lemma regex_match_groups (s note : string) (d : ascii) :
  regex_match s = Some (note, d) ->
  exists l acc,
    isLetterAG l = true /\ accidental_ok acc /\ isDigit d = true /\
    note = String l acc.
Proof.
  induction s as [|c s IH]; [discriminate|].
  rewrite regex_match_cons.
  destruct (match_here (String c s)) as [[note' d']|] eqn:Eh.
  - intros [= -> ->]. apply match_here_sound in Eh
      as (l & acc & post & Hl & Ha & Hd & Hn & _).
    exists l, acc. auto.
  - exact IH.
Qed.

Lemma notes_missing (l : ascii) (acc : string) :
  isLetterAG l = true -> accidental_ok acc ->
  (notes (String l acc) = None <->
   In (String l acc) ["Cb"; "Fb"; "E#"; "B#"]).
Proof.
  intros Hl Ha.
  destruct (isLetterAG_cases l Hl) as [->|[->|[->|[->|[->|[->| ->]]]]]];
    destruct Ha as [->|[->| ->]]; cbn; split;
    try discriminate; try tauto;
    intros H; repeat (destruct H as [H|H]; try discriminate H); tauto.
Qed.

(** X1: the resolver returns [NaN] exactly when the first note name the
    pattern finds in the string is Cb, Fb, E# or B#, the four names the
    pattern accepts and the table does not hold. *)
Theorem getFrequency_NaN_iff (s : string) :
  getFrequency s = NaN <->
  exists note d,
    regex_match s = Some (note, d) /\ In note ["Cb"; "Fb"; "E#"; "B#"].
Proof.
  unfold getFrequency. split.
  - destruct (regex_match s) as [[note d]|] eqn:E; [|discriminate].
    destruct (regex_match_groups s note d E) as (l & acc & Hl & Ha & _ & ->).
    destruct (notes (String l acc)) eqn:En; [discriminate|].
    intros _. exists (String l acc), d. split; [reflexivity|].
    now apply notes_missing.
  - intros (note & d & E & Hin). rewrite E.
    destruct (regex_match_groups s note d E) as (l & acc & Hl & Ha & _ & ->).
    apply notes_missing in Hin; [|assumption..]. now rewrite Hin.
Qed.

Lemma Rpower_2_nat (n : nat) : Rpower 2 (INR n) = (2 ^ n)%R.
Proof. apply Rpower_pow. lra. Qed.

Lemma Rpower_2_le (x y : R) : (x <= y)%R -> (Rpower 2 x <= Rpower 2 y)%R.
Proof.
  intros [H| ->]; [|lra]. left. apply Rpower_lt; lra.
Qed.

(** X2: every frequency the resolver returns as a number lies between
    27.5 Hz (the name C in octave 0) and 28160 Hz (64 times 440), the
    fallback 440 included. *)
Theorem getFrequency_range (s : string) (r : R) :
  getFrequency s = Num r -> (27.5 <= r < 28160)%R.
Proof.
  unfold getFrequency.
  destruct (regex_match s) as [[note d]|] eqn:E.
  2:{ intros [= <-]. lra. }
  destruct (regex_match_groups s note d E) as (l & acc & _ & _ & Hd & ->).
  destruct (notes (String l acc)) as [n|] eqn:En; [|discriminate].
  intros [= <-].
  pose proof (notes_range _ _ En) as Hn.
  pose proof (parseInt_digit d Hd) as Ho.
  assert (Hlo : (-48 <= semitones n (parseInt d))%Z) by (unfold semitones; lia).
  assert (Hhi : (semitones n (parseInt d) <= 71)%Z) by (unfold semitones; lia).
  apply IZR_le in Hlo, Hhi.
  set (x := IZR (semitones n (parseInt d))) in *.
  assert (L : (Rpower 2 (- INR 4) <= Rpower 2 (x / 12))%R)
    by (apply Rpower_2_le; simpl; lra).
  assert (U : (Rpower 2 (x / 12) < Rpower 2 (INR 6))%R)
    by (apply Rpower_lt; simpl; lra).
  rewrite Rpower_Ropp, Rpower_2_nat in L. rewrite Rpower_2_nat in U.
  simpl in L, U. lra.
Qed.

Lemma getFrequency_range_witness : (27.5 <= 440 < 28160)%R.
Proof.
  apply (getFrequency_range "rest" 440). reflexivity.
Defined.

Lemma getFrequency_octave_table_witness :
  num_double (getFrequency "G#3") (getFrequency "G#4").
Proof.
  exact (proj1 (getFrequency_octave_table "G" "3" "4" "#" 8 eq_refl
                  (or_intror (or_introl eq_refl)) eq_refl eq_refl eq_refl)
               eq_refl).
Defined.

Lemma match_here_not_letter (c : ascii) (s : string) :
  isLetterAG c = false -> match_here (String c s) = None.
Proof. intros H. unfold match_here. now rewrite H. Qed.

(** X4: the resolver reads the first pitch token of the string: the
    characters after it are ignored, and so are the characters before it
    when none of them is a letter A-G. *)
Theorem getFrequency_first_token (pre post : string) (l d : ascii)
    (acc : string) :
  (forall c, In c (list_ascii_of_string pre) -> isLetterAG c = false) ->
  isLetterAG l = true -> accidental_ok acc -> isDigit d = true ->
  getFrequency (pre ++ pitch_string l acc d ++ post)
  = getFrequency (pitch_string l acc d).
Proof.
  intros Hpre Hl Ha Hd.
  assert (E : regex_match (pre ++ pitch_string l acc d ++ post)
              = Some (String l acc, d)).
  { induction pre as [|c pre IH].
    - pose proof (match_here_token l d acc post Hl Ha Hd) as H.
      unfold pitch_string in H |- *. cbn [append] in H |- *.
      now rewrite regex_match_cons, H.
    - change (String c pre ++ pitch_string l acc d ++ post)
        with (String c (pre ++ pitch_string l acc d ++ post)).
      rewrite regex_match_cons, match_here_not_letter.
      + apply IH. intros c' Hc'. apply Hpre. now right.
      + apply Hpre. now left. }
  unfold getFrequency at 1. rewrite E.
  now rewrite (getFrequency_pitch_string l d acc Hl Ha Hd).
Qed.

Lemma getFrequency_first_token_witness :
  getFrequency "  (Eb3) then F#4" = getFrequency "Eb3".
Proof.
  refine (getFrequency_first_token "  (" ") then F#4" "E" "3" "b" _ eq_refl
            (or_intror (or_intror eq_refl)) eq_refl).
  intros c Hc. cbn in Hc.
  destruct Hc as [<-|[<-|[<-|[]]]]; reflexivity.
Defined.

(** X5: in every octave the two spellings of a black key resolve to the
    same frequency: C# and Db, D# and Eb, F# and Gb, G# and Ab, A# and
    Bb. *)
Theorem getFrequency_enharmonic (d : ascii) :
  isDigit d = true ->
  getFrequency (pitch_string "C" "#" d) = getFrequency (pitch_string "D" "b" d) /\
  getFrequency (pitch_string "D" "#" d) = getFrequency (pitch_string "E" "b" d) /\
  getFrequency (pitch_string "F" "#" d) = getFrequency (pitch_string "G" "b" d) /\
  getFrequency (pitch_string "G" "#" d) = getFrequency (pitch_string "A" "b" d) /\
  getFrequency (pitch_string "A" "#" d) = getFrequency (pitch_string "B" "b" d).
Proof.
  intros Hd.
  rewrite !getFrequency_pitch_string
    by (assumption || reflexivity || (right; left; reflexivity)
        || (right; right; reflexivity)).
  repeat split; reflexivity.
Qed.

Lemma getFrequency_enharmonic_witness :
  getFrequency "A#5" = getFrequency "Bb5".
Proof.
  exact (proj2 (proj2 (proj2 (proj2
           (getFrequency_enharmonic "5" eq_refl))))).
Defined.

End PitchMore.

(** ** The output graph, the equalizer and the image size *)

Section EngineMore.

Import Engine.
Local Open Scope R_scope.

Lemma access_fresh (a : Access) : access fresh a = ready.
Proof. destruct a; reflexivity. Qed.

Lemma access_ready (a : Access) : access ready a = ready.
Proof. destruct a; reflexivity. Qed.

Lemma accesses_ready (l : list Access) : accesses l ready = ready.
Proof.
  unfold accesses. induction l as [|a l IH]; [reflexivity|].
  cbn [fold_left]. now rewrite access_ready.
Qed.

Lemma accesses_fresh (l : list Access) :
  accesses l fresh = fresh \/ accesses l fresh = ready.
Proof.
  destruct l as [|a l]; [now left|right].
  unfold accesses. cbn [fold_left]. rewrite access_fresh.
  apply accesses_ready.
Qed.

(** X6: whatever calls of [init] and of the two getters came before, the
    getters return the nodes of one and the same graph: [context] gives the
    first context constructed, [analyserNode] an analyser with [fftSize]
    256, the master gain is there with gain 0.5, and one [AudioContext] has
    been constructed, never a second one. *)
Theorem engine_graph_built_once (l : list Access) :
  context (accesses l fresh) = (ready, Some 0%nat) /\
  analyserNode (accesses l fresh) = (ready, Some 256%nat) /\
  init (accesses l fresh) = ready /\
  masterGain (fst (context (accesses l fresh))) = Some 0.5 /\
  constructed (fst (context (accesses l fresh))) = 1%nat /\
  (constructed (accesses l fresh) <= 1)%nat.
Proof.
  destruct (accesses_fresh l) as [-> | ->]; cbn; repeat split; auto.
Qed.

End EngineMore.

Section EqualizerMore.

Import Equalizer.
Local Open Scope R_scope.

(** X7: for each of the 40 bars and any non-empty frequency buffer, the
    index the equalizer reads is inside the buffer, and in its lower
    half. *)
Theorem sampleIndex_in_bounds (i bufferLength : nat) :
  (i < barCount)%nat -> (0 < bufferLength)%nat ->
  (0 <= sampleIndex i bufferLength)%Z /\
  (2 * sampleIndex i bufferLength < Z.of_nat bufferLength)%Z.
Proof.
  intros Hi Hb. unfold sampleIndex, barCount in *.
  set (x := INR i / INR 40 * (INR bufferLength / 2)).
  assert (H40 : INR 40 = 40) by (simpl; lra).
  assert (Hi' : 0 <= INR i < 40).
  { split; [apply pos_INR|]. rewrite <- H40. now apply lt_INR. }
  assert (Hb' : 0 < INR bufferLength) by (now apply lt_0_INR).
  assert (Hx : 0 <= x < INR bufferLength / 2).
  { unfold x. rewrite H40. split.
    - apply Rmult_le_pos; [|lra].
      apply Rmult_le_pos; [lra|]. left. apply Rinv_0_lt_compat. lra.
    - rewrite <- (Rmult_1_l (INR bufferLength / 2)) at 2.
      apply Rmult_lt_compat_r; [lra|].
      apply (Rmult_lt_reg_r 40); [lra|]. unfold Rdiv.
      rewrite Rmult_assoc, Rinv_l by lra. lra. }
  destruct (base_Int_part x) as [H1 H2].
  split.
  - apply le_IZR. assert (-1 < IZR (Int_part x)) by lra.
    apply lt_IZR in H. apply IZR_le. lia.
  - apply lt_IZR. rewrite mult_IZR, <- INR_IZR_INZ. lra.
Qed.

Lemma sampleIndex_in_bounds_witness :
  (0 <= sampleIndex 39 128)%Z /\ (2 * sampleIndex 39 128 < Z.of_nat 128)%Z.
Proof.
  apply (sampleIndex_in_bounds 39 128); unfold barCount; lia.
Defined.

End EqualizerMore.

Section ServiceMore.

Import Service.
Local Open Scope R_scope.

Lemma scaled_side (a b : R) :
  0 < a -> a <= b -> 0 < a * (MAX_DIM / b) <= MAX_DIM.
Proof.
  intros Ha Hab. unfold MAX_DIM.
  assert (Hb : 0 < b) by lra.
  assert (Hinv : 0 < / b) by (now apply Rinv_0_lt_compat).
  replace (a * (1024 / b)) with (1024 * (a * / b)) by (field; lra).
  assert (H1 : a * / b <= 1).
  { apply (Rmult_le_reg_r b); [assumption|].
    rewrite Rmult_assoc, Rinv_l by lra. lra. }
  assert (H0 : 0 < a * / b) by (now apply Rmult_lt_0_compat).
  lra.
Qed.

(** X8: the size an image is drawn at fits in 1024 by 1024, keeps the
    proportions of the image, and is the size of the image itself when
    that already fits. *)
Theorem compressImage_size_fits (width height : R) :
  0 < width -> 0 < height ->
  let (w, h) := compressImage_size width height in
  0 < w <= MAX_DIM /\ 0 < h <= MAX_DIM /\
  w * height = width * h /\
  (width <= MAX_DIM -> height <= MAX_DIM -> w = width /\ h = height) /\
  (MAX_DIM < width \/ MAX_DIM < height -> w = MAX_DIM \/ h = MAX_DIM).
Proof.
  intros Hw Hh. unfold compressImage_size.
  destruct (Rlt_dec height width) as [Hlt|Hge].
  - destruct (Rlt_dec MAX_DIM width) as [Hbig|Hsmall].
    + pose proof (scaled_side height width Hh ltac:(lra)) as Hs.
      split; [unfold MAX_DIM; lra|]. split; [exact Hs|].
      split; [field; lra|]. split; [intros; lra|now left].
    + split; [lra|]. split; [lra|]. split; [reflexivity|].
      split; [now split|intros [H|H]; lra].
  - destruct (Rlt_dec MAX_DIM height) as [Hbig|Hsmall].
    + pose proof (scaled_side width height Hw ltac:(lra)) as Hs.
      split; [exact Hs|]. split; [unfold MAX_DIM; lra|].
      split; [field; lra|]. split; [intros; lra|now right].
    + split; [lra|]. split; [lra|]. split; [reflexivity|].
      split; [now split|intros [H|H]; lra].
Qed.

Lemma compressImage_size_fits_witness :
  let (w, h) := compressImage_size 4032 3024 in
  0 < w <= MAX_DIM /\ 0 < h <= MAX_DIM /\
  w * 3024 = 4032 * h /\
  (4032 <= MAX_DIM -> 3024 <= MAX_DIM -> w = 4032 /\ h = 3024) /\
  (MAX_DIM < 4032 \/ MAX_DIM < 3024 -> w = MAX_DIM \/ h = MAX_DIM).
Proof.
  apply (compressImage_size_fits 4032 3024); lra.
Defined.

(** X9: compressing twice changes nothing more: the size computed from a
    computed size is that size. *)
Theorem compressImage_size_idempotent (width height : R) :
  0 < width -> 0 < height ->
  let (w, h) := compressImage_size width height in
  compressImage_size w h = (w, h).
Proof.
  intros Hw Hh. unfold compressImage_size at 1.
  destruct (Rlt_dec height width) as [Hlt|Hge];
    [destruct (Rlt_dec MAX_DIM width) as [Hbig|Hsmall];
       [pose proof (scaled_side height width Hh ltac:(lra)) as Hs|]
    |destruct (Rlt_dec MAX_DIM height) as [Hbig|Hsmall];
       [pose proof (scaled_side width height Hw ltac:(lra)) as Hs|]];
    unfold compressImage_size;
    repeat match goal with
           | |- context [Rlt_dec ?a ?b] => destruct (Rlt_dec a b)
           end;
    try reflexivity; exfalso; lra.
Qed.

Lemma compressImage_size_idempotent_witness :
  let (w, h) := compressImage_size 600 2400 in
  compressImage_size w h = (w, h).
Proof.
  apply (compressImage_size_idempotent 600 2400); lra.
Defined.

End ServiceMore.

(** ** Measure arranger *)

Section ArrangerMore.

Import Score App Playback.
Local Open Scope list_scope.
Local Open Scope R_scope.

Lemma bassLoop_In cd st cs : forall i c,
  In c (bassLoop cd st i cs) ->
  exists chord t, In chord cs /\
    c = PlayNote (charAt0 chord ++ "2")%string cd BASS t.
Proof.
  induction cs as [|ch cs IH]; intros i c; simpl; [tauto|].
  intros [<-|H].
  - exists ch, (st + INR i * cd). auto.
  - destruct (IH _ _ H) as (chord & t & Hin & ->).
    exists chord, t. auto.
Qed.

(** The pitch of a bass tone always resolves: one letter A-G is a name of
    the table, and anything else falls back to 440. *)
Lemma getFrequency_root (chord : string) :
  exists r, Pitch.getFrequency (charAt0 chord ++ "2") = Pitch.Num r.
Proof.
  destruct chord as [|l rest]; cbn [charAt0 append].
  - exists 440. reflexivity.
  - destruct (Pitch.isLetterAG l) eqn:El.
    + change (String l "2") with (Pitch.pitch_string l "" "2").
      rewrite (getFrequency_pitch_string l "2" "" El (or_introl eq_refl)
                 eq_refl).
      destruct (isLetterAG_cases l El)
        as [->|[->|[->|[->|[->|[->| ->]]]]]]; cbn; eauto.
    + exists 440. unfold Pitch.getFrequency.
      rewrite regex_match_cons, (match_here_not_letter l "2" El).
      reflexivity.
Qed.

(** X10: the pitch of every bass tone of a measure resolves to a number,
    never to [NaN], whatever the chord names are. *)
Theorem arrange_bass_pitch_resolves (sel : list InstrumentType)
    (vocals : nat -> option string) (tempo : R) (index : nat) (st : R)
    (m : Measure) (p : string) (d : R) (i : InstrumentType) (t : R) :
  In (PlayNote p d i t) (bassCalls (arrange sel vocals tempo index st m)) ->
  exists r, Pitch.getFrequency p = Pitch.Num r.
Proof.
  rewrite arrange_bassCalls. unfold bassPart.
  destruct (has sel BASS && (0 <? List.length (chords m))%nat); [|intros []].
  intros H. apply bassLoop_In in H as (chord & t' & _ & [= -> _ _ _]).
  apply getFrequency_root.
Qed.

Lemma arrange_bass_pitch_resolves_witness :
  exists r, Pitch.getFrequency "G2" = Pitch.Num r.
Proof.
  apply (arrange_bass_pitch_resolves [BASS] (fun _ => None) 90 0 10
           twoChordMeasure "G2" (4 * (60 / 90) / INR 2) BASS
           (10 + INR 1 * (4 * (60 / 90) / INR 2))).
  rewrite arrange_bassCalls. right. left. reflexivity.
Defined.

(** The number of calls of a measure when each call returns: one per
    melody note when the piano or the guitar is selected, one per chord
    when the bass is, twelve drum hits when the drums are, and one vocal
    clip when a vocal track is selected and the measure has a clip. *)
Theorem arrange_call_count (sel : list InstrumentType)
    (vocals : nat -> option string) (tempo : R) (index : nat) (st : R)
    (m : Measure) :
  List.length (arrange sel vocals tempo index st m) =
  ((if has sel PIANO || has sel GUITAR then List.length (melody m) else 0)
   + (if has sel BASS then List.length (chords m) else 0)
   + (if has sel DRUMS then 12 else 0)
   + List.length (vocalPart sel vocals index st))%nat /\
  (List.length (vocalPart sel vocals index st) <= 1)%nat.
Proof.
  unfold arrange. rewrite !length_app. split.
  - unfold melodyPart, bassPart, drumPart.
    destruct (has sel PIANO || has sel GUITAR);
      destruct (has sel BASS); destruct (has sel DRUMS);
      cbn [andb]; rewrite ?melodyLoop_length;
      try (destruct (Nat.ltb_spec 0 (List.length (chords m)));
           rewrite ?bassLoop_length);
      cbn [List.length flat_map seq drumStep app Nat.eqb orb]; lia.
  - unfold vocalPart. destruct (vocals index) as [[|c s]|]; cbn; try lia.
    destruct (has sel MALE_VOCAL || has sel FEMALE_VOCAL); cbn; lia.
Qed.

(** When each call returns, the bass tones tile the measure: each one
    starts where the one
    before it stops, and the last one stops four beats after the start of
    the measure, where the next measure starts. *)
Theorem arrange_bass_tiles_measure (sel : list InstrumentType)
    (vocals : nat -> option string) (tempo : R) (index : nat) (st : R)
    (m : Measure) :
  tempo <> 0 ->
  has sel BASS = true ->
  chords m <> [] ->
  let calls := bassCalls (arrange sel vocals tempo index st m) in
  (forall k c c', nth_error calls k = Some c ->
     nth_error calls (S k) = Some c' ->
     toneEnd c = Some (callStart c')) /\
  (forall c, nth_error calls (List.length (chords m) - 1) = Some c ->
     toneEnd c = Some (st + 4 * (60 / tempo))) /\
  (exists c, nth_error calls 0 = Some c /\ callStart c = st).
Proof.
  intros Htempo Hsel Hne calls.
  set (N := List.length (chords m)).
  set (slot := 4 * (60 / tempo) / INR N).
  assert (HN : (0 < N)%nat).
  { unfold N. destruct (chords m); [congruence|simpl; lia]. }
  assert (Ecalls : calls = bassLoop slot st 0 (chords m)).
  { unfold calls. rewrite arrange_bassCalls. unfold bassPart.
    rewrite Hsel. fold N.
    destruct (Nat.ltb_spec 0 N) as [_|Hle]; [reflexivity|lia]. }
  assert (Hnth : forall k c, nth_error calls k = Some c ->
            exists chord, c = PlayNote (charAt0 chord ++ "2")%string slot
                                       BASS (st + INR k * slot)).
  { intros k c Hk.
    destruct (nth_error (chords m) k) as [chord|] eqn:E.
    - rewrite Ecalls, (bassLoop_nth _ _ _ 0%nat k chord E) in Hk.
      injection Hk as <-. now exists chord.
    - apply nth_error_None in E.
      rewrite <- (bassLoop_length slot st 0), <- Ecalls in E.
      apply nth_error_None in E. congruence. }
  split; [|split].
  - intros k c c' Hk HSk.
    destruct (Hnth _ _ Hk) as [ch ->]. destruct (Hnth _ _ HSk) as [ch' ->].
    cbn [toneEnd callStart]. rewrite S_INR. f_equal. ring.
  - intros c Hc. destruct (Hnth _ _ Hc) as [ch ->]. cbn [toneEnd].
    f_equal. fold N. unfold slot.
    rewrite minus_INR by lia. cbn [INR].
    assert (INR N <> 0) by (apply not_0_INR; lia).
    field; auto.
  - destruct (chords m) as [|ch rest] eqn:E; [congruence|].
    rewrite Ecalls. cbn. eexists. split; [reflexivity|].
    cbn. ring.
Qed.

Lemma arrange_bass_tiles_measure_witness :
  exists c,
    nth_error (bassCalls (arrange [BASS; DRUMS] (fun _ => None) 120 0 10
                                  twoChordMeasure)) 0 = Some c /\
    callStart c = 10.
Proof.
  refine (proj2 (proj2 (arrange_bass_tiles_measure [BASS; DRUMS]
                          (fun _ => None) 120 0 10 twoChordMeasure
                          ltac:(lra) eq_refl _))).
  discriminate.
Defined.

Lemma melodyLoop_last inst b st ns : forall off c,
  nth_error (melodyLoop inst b st off ns) (List.length ns - 1) = Some c ->
  toneEnd c = Some (st + (off + sumDurations ns * b)).
Proof.
  induction ns as [|n ns IH]; intros off c.
  - discriminate.
  - destruct ns as [|n' ns'].
    + cbn. intros [= <-]. cbn. f_equal. ring.
    + replace (List.length (n :: n' :: ns') - 1)%nat
        with (S (List.length (n' :: ns') - 1)) by (cbn [List.length]; lia).
      cbn [melodyLoop nth_error]. intros H.
      apply IH in H. rewrite H. cbn [sumDurations]. f_equal. ring.
Qed.

(** X13: with the piano or the guitar selected, the last tone of the melody
    stops at the start of the measure plus the beats of the whole melody
    times the beat duration; a melody of exactly four beats stops where the
    next measure starts. *)
Theorem arrange_melody_end (sel : list InstrumentType)
    (vocals : nat -> option string) (tempo : R) (index : nat) (st : R)
    (m : Measure) (c : AudioCall) :
  has sel PIANO || has sel GUITAR = true ->
  nth_error (melodyCalls (arrange sel vocals tempo index st m))
            (List.length (melody m) - 1) = Some c ->
  toneEnd c = Some (st + sumDurations (melody m) * (60 / tempo)) /\
  (sumDurations (melody m) = 4 ->
   toneEnd c = Some (st + 4 * (60 / tempo))).
Proof.
  intros Hsel. rewrite arrange_melodyCalls. unfold melodyPart.
  rewrite Hsel. intros H. apply melodyLoop_last in H.
  rewrite H. split.
  - f_equal. ring.
  - intros ->. f_equal. ring.
Qed.

Lemma arrange_melody_end_witness :
  toneEnd (PlayNote "G4" (2 * (60 / 120)) PIANO
             (10 + (0 + 1 * (60 / 120) + 1 * (60 / 120))))
  = Some (10 + sumDurations (melody scenarioMeasure) * (60 / 120)).
Proof.
  refine (proj1 (arrange_melody_end [PIANO] (fun _ => None) 120 0 10
                   scenarioMeasure _ eq_refl _)).
  rewrite arrange_melodyCalls. reflexivity.
Defined.

(** X14: at a positive tempo every drum hit of a measure falls inside the
    measure: not before its start and less than four beats after it. *)
Theorem arrange_drums_inside_measure (sel : list InstrumentType)
    (vocals : nat -> option string) (tempo : R) (index : nat) (st : R)
    (m : Measure) (ty : DrumType) (t : R) :
  0 < tempo ->
  In t (drumTimes ty (arrange sel vocals tempo index st m)) ->
  st <= t < st + 4 * (60 / tempo).
Proof.
  intros Ht. rewrite arrange_drumTimes. unfold drumPart.
  assert (Hb : 0 < 60 / tempo).
  { apply Rmult_lt_0_compat; [lra|now apply Rinv_0_lt_compat]. }
  set (b := 60 / tempo) in *.
  destruct (has sel DRUMS); [|intros []].
  cbn [flat_map seq drumStep app Nat.eqb orb drumTimes INR].
  destruct ty; cbn [DrumType_eqb drumTimes In];
    intros H; repeat (destruct H as [<-|H]; [lra|]); destruct H.
Qed.

Lemma arrange_drums_inside_measure_witness :
  10 <= 10 + (1 + 1 + 1) * (60 / 120) < 10 + 4 * (60 / 120).
Proof.
  refine (arrange_drums_inside_measure [DRUMS] (fun _ => None) 120 0 10
            twoChordMeasure snare _ ltac:(lra) _).
  rewrite arrange_drumTimes. right. left. reflexivity.
Defined.

Lemma has_filter_out (i j : InstrumentType) (sel : list InstrumentType) :
  has (filter (fun k => negb (InstrumentType_eqb i k)) sel) j
  = negb (InstrumentType_eqb i j) && has sel j.
Proof.
  unfold has. induction sel as [|k sel IH]; cbn.
  - now rewrite andb_false_r.
  - destruct (InstrumentType_eqb i k) eqn:E; cbn; rewrite IH;
      destruct i, j, k; try discriminate; cbn; try reflexivity;
      now destruct (existsb _ sel).
Qed.

Lemma has_app_one (i j : InstrumentType) (sel : list InstrumentType) :
  has (sel ++ [i]) j = has sel j || InstrumentType_eqb i j.
Proof.
  unfold has. rewrite existsb_app. cbn. rewrite orb_false_r.
  f_equal. now destruct i, j.
Qed.

(** X15: an instrument toggle flips the membership of that instrument and
    of no other, so toggling the same instrument twice gives back the
    selection, as a set. *)
Theorem toggle_membership (i j : InstrumentType)
    (sel : list InstrumentType) :
  has (toggle i sel) j
  = (if InstrumentType_eqb i j then negb (has sel i) else has sel j) /\
  has (toggle i (toggle i sel)) j = has sel j.
Proof.
  assert (H1 : forall sel0 k, has (toggle i sel0) k
     = (if InstrumentType_eqb i k then negb (has sel0 i) else has sel0 k)).
  { intros sel0 k. unfold toggle.
    destruct (has sel0 i) eqn:Hi.
    - rewrite has_filter_out.
      destruct (InstrumentType_eqb i k) eqn:E; reflexivity.
    - rewrite has_app_one.
      destruct (InstrumentType_eqb i k) eqn:E.
      + now rewrite orb_true_r.
      + now rewrite orb_false_r. }
  split; [apply H1|].
  rewrite H1, (H1 sel i), (H1 sel j).
  assert (Hii : InstrumentType_eqb i i = true) by (now destruct i).
  rewrite Hii.
  destruct (InstrumentType_eqb i j) eqn:E; [|reflexivity].
  rewrite negb_involutive.
  destruct i, j; try discriminate; reflexivity.
Qed.

End ArrangerMore.

(** ** Preparing the vocals *)

Section LoaderMore.

Import Score App Loader.
Local Open Scope list_scope.

Variable respond : nat -> string -> string -> option string.

Lemma vocalOfMeasure_index voice i m j a :
  vocalOfMeasure respond voice i m = Some (j, a) -> j = i.
Proof.
  unfold vocalOfMeasure. destruct (nonEmpty _); [|discriminate].
  destruct (Service.generateVocalAudio _); [|discriminate].
  now intros [= <- _].
Qed.

(** What the map holds at [j] once the results of the measures [ms],
    numbered from [k], are stored over [map0]. *)
Lemma storeResults_lookup voice ms : forall k map0 j,
  fold_left storeResult (vocalResults respond voice k ms) map0 j =
  match nth_error ms (j - k) with
  | Some m =>
      if (k <=? j)%nat then
        match vocalOfMeasure respond voice j m with
        | Some (_, a) => Some a
        | None => map0 j
        end
      else map0 j
  | None => map0 j
  end.
Proof.
  induction ms as [|m ms IH]; intros k map0 j.
  - cbn. now destruct (j - k)%nat.
  - cbn [vocalResults fold_left]. rewrite IH.
    destruct (Nat.leb_spec k j) as [Hkj|Hkj].
    + destruct (Nat.eq_dec j k) as [->|Hne].
      * rewrite Nat.sub_diag. cbn [nth_error].
        assert (E : (k - S k = 0)%nat) by lia. rewrite E.
        assert (L : (S k <=? k)%nat = false) by (apply Nat.leb_gt; lia).
        rewrite L.
        assert (F : storeResult map0 (vocalOfMeasure respond voice k m) k =
                    match vocalOfMeasure respond voice k m with
                    | Some (_, a) => Some a
                    | None => map0 k
                    end).
        { destruct (vocalOfMeasure respond voice k m) as [[i a]|] eqn:Ev;
            [|reflexivity].
          apply vocalOfMeasure_index in Ev as ->.
          unfold storeResult, insertVocal. now rewrite Nat.eqb_refl. }
        destruct (nth_error ms 0); exact F.
      * assert (E : (j - k = S (j - S k))%nat) by lia. rewrite E.
        cbn [nth_error].
        assert (L : (S k <=? j)%nat = true) by (apply Nat.leb_le; lia).
        rewrite L.
        assert (F : storeResult map0 (vocalOfMeasure respond voice k m) j
                    = map0 j).
        { destruct (vocalOfMeasure respond voice k m) as [[i a]|] eqn:Ev;
            [|reflexivity].
          apply vocalOfMeasure_index in Ev as ->.
          unfold storeResult, insertVocal.
          destruct (Nat.eqb_spec j k); [contradiction|reflexivity]. }
        rewrite F. reflexivity.
    + assert (L : (S k <=? j)%nat = false) by (apply Nat.leb_gt; lia).
      rewrite L.
      assert (F : storeResult map0 (vocalOfMeasure respond voice k m) j
                  = map0 j).
      { destruct (vocalOfMeasure respond voice k m) as [[i a]|] eqn:Ev;
          [|reflexivity].
        apply vocalOfMeasure_index in Ev as ->.
        unfold storeResult, insertVocal.
        destruct (Nat.eqb_spec j k); [lia|reflexivity]. }
      rewrite F.
      destruct (nth_error ms (j - S k)), (nth_error (m :: ms) (j - k));
        reflexivity.
Qed.

Lemma nonEmpty_true (s : string) : nonEmpty s = true <-> s <> "".
Proof. destruct s; cbn; split; congruence. Qed.

Lemma generateAllVocals_fold sel data :
  generateAllVocals respond sel data =
  fold_left storeResult
    (vocalResults respond (if has sel FEMALE_VOCAL then "Kore" else "Puck")
                  0 (measures data))
    (fun _ => None).
Proof. reflexivity. Qed.

(** X16: the vocal map holds a clip for measure [i] exactly when the
    measure exists, its lyrics are not blank and the synthesis of these
    lyrics gave audio data; the clip is that data.  A failed synthesis
    leaves out the measure it fails for and no other, and a measure
    without lyrics gets no clip. *)
Theorem generateAllVocals_lookup (sel : list InstrumentType)
    (data : ScoreData) (i : nat) (a : string) :
  generateAllVocals respond sel data i = Some a <->
  exists m,
    nth_error (measures data) i = Some m /\
    trim (lyricsOf m) <> "" /\
    Service.generateVocalAudio
      (respond i ("Vocalize: " ++ lyricsOf m)%string
               (if has sel FEMALE_VOCAL then "Kore" else "Puck")) = Some a.
Proof.
  rewrite generateAllVocals_fold, storeResults_lookup, Nat.sub_0_r.
  cbn [Nat.leb]. unfold vocalOfMeasure.
  destruct (nth_error (measures data) i) as [m|].
  - destruct (nonEmpty (trim (lyricsOf m))) eqn:En.
    + apply nonEmpty_true in En.
      destruct (Service.generateVocalAudio _) as [a'|] eqn:Eg.
      * split.
        -- intros [= <-]. exists m. auto.
        -- intros (m' & [= <-] & _ & H). congruence.
      * split; [discriminate|].
        intros (m' & [= <-] & _ & H). congruence.
    + split; [discriminate|].
      intros (m' & [= <-] & H & _).
      apply nonEmpty_true in H. congruence.
  - split; [discriminate|]. intros (m' & H & _). discriminate.
Qed.


End LoaderMore.

(** ** Performance scheduler *)

Section SchedulerMore.

Import Score App Playback.
Local Open Scope list_scope.
Local Open Scope R_scope.

Lemma depsChanged_playing (i : Input) (old new : AppState) :
  isPlaying old <> isPlaying new -> depsChanged i old new = true.
Proof.
  intros H. unfold depsChanged.
  destruct (isPlaying old), (isPlaying new); try congruence; reflexivity.
Qed.

Lemma depsChanged_index (i : Input) (old new : AppState) :
  currentMeasureIndex old <> currentMeasureIndex new ->
  depsChanged i old new = true.
Proof.
  intros H. unfold depsChanged.
  apply Nat.eqb_neq in H. rewrite H. cbn.
  now rewrite orb_true_r.
Qed.

Lemma depsChanged_toggle (j : InstrumentType) (old new : AppState) :
  depsChanged (ToggleInstrument j) old new = true.
Proof. unfold depsChanged. now rewrite orb_true_r. Qed.

Lemma anchorAt_set (now : R) (s : AppState) :
  measureStartTimeRef s <> 0 -> anchorAt now s = measureStartTimeRef s.
Proof.
  intros H. unfold anchorAt.
  destruct (Req_dec_T (measureStartTimeRef s) 0); [contradiction|reflexivity].
Qed.

Lemma anchorAt_unset (now : R) (s : AppState) :
  measureStartTimeRef s = 0 -> anchorAt now s = now + 0.1.
Proof.
  intros H. unfold anchorAt.
  destruct (Req_dec_T (measureStartTimeRef s) 0); [reflexivity|contradiction].
Qed.

(** The timeout firing before the last measure: the next measure is
    arranged at the anchor moved on by the duration the timeout was armed
    with, and a timeout is armed for it at the tempo of now. *)
Lemma step_fire_next (now : R) (s : AppState) (sc : ScoreData)
    (t : Timeout) (m : Measure) :
  isPlaying s = true ->
  score s = Some sc ->
  playbackTimerRef s = Some t ->
  measureCount t = List.length (measures sc) ->
  nth_error (measures sc) (currentMeasureIndex s + 1) = Some m ->
  measureStartTimeRef s + measureDuration t <> 0 ->
  step now TimerFires s =
  Some (mkApp (Some sc) true (tempo s) (selectedInstruments s)
          (currentMeasureIndex s + 1) (vocalAudioMap s)
          (Some (mkTimeout (4 * (60 / tempo s) * 1000) (4 * (60 / tempo s))
                           (List.length (measures sc))))
          (measureStartTimeRef s + measureDuration t)
          (audio s ++ arrange (selectedInstruments s) (vocalAudioMap s)
                              (tempo s) (currentMeasureIndex s + 1)
                              (measureStartTimeRef s + measureDuration t) m)).
Proof.
  intros Hp Hs Ht Hc Hm Ha.
  assert (Hlt : (currentMeasureIndex s + 1 < List.length (measures sc))%nat).
  { apply nth_error_Some. congruence. }
  assert (Hh : handle TimerFires s =
               set_index (currentMeasureIndex s + 1)
                 (set_anchor (measureStartTimeRef s + measureDuration t)
                             (set_timer None s))).
  { cbn [handle]. rewrite Ht. unfold timerCallback.
    cbn [currentMeasureIndex set_anchor set_timer]. rewrite Hc.
    destruct (Nat.leb_spec (List.length (measures sc))
                           (currentMeasureIndex s + 1)); [lia|reflexivity]. }
  unfold step. rewrite Hh.
  rewrite depsChanged_index by (cbn; lia).
  rewrite (runEffect_playing now _ sc m) by (cbn; assumption).
  rewrite anchorAt_set by (cbn; assumption).
  cbn. rewrite Hp. rewrite Hs. reflexivity.
Qed.

(** The timeout firing at the last measure. *)
Lemma step_fire_last (now : R) (s : AppState) (sc : ScoreData)
    (t : Timeout) :
  isPlaying s = true ->
  score s = Some sc ->
  playbackTimerRef s = Some t ->
  measureCount t = List.length (measures sc) ->
  (List.length (measures sc) <= currentMeasureIndex s + 1)%nat ->
  step now TimerFires s =
  Some (mkApp (Some sc) false (tempo s) (selectedInstruments s) 0
          (vocalAudioMap s) None
          (measureStartTimeRef s + measureDuration t) (audio s)).
Proof.
  intros Hp Hs Ht Hc Hlast.
  assert (Hh : handle TimerFires s =
               set_index 0 (set_isPlaying false
                 (set_anchor (measureStartTimeRef s + measureDuration t)
                             (set_timer None s)))).
  { cbn [handle]. rewrite Ht. unfold timerCallback.
    cbn [currentMeasureIndex set_anchor set_timer]. rewrite Hc.
    destruct (Nat.leb_spec (List.length (measures sc))
                           (currentMeasureIndex s + 1)); [reflexivity|lia]. }
  unfold step. rewrite Hh.
  rewrite depsChanged_playing by (cbn; rewrite Hp; discriminate).
  rewrite runEffect_stopped by reflexivity.
  unfold set_timer, set_index, set_isPlaying, set_anchor. cbn.
  rewrite Hs. reflexivity.
Qed.

(** The play button while stopped, on a measure that exists. *)
Lemma step_play (now : R) (s : AppState) (sc : ScoreData) (m : Measure) :
  isPlaying s = false ->
  score s = Some sc ->
  nth_error (measures sc) (currentMeasureIndex s) = Some m ->
  step now PlayToggle s =
  Some (mkApp (Some sc) true (tempo s) (selectedInstruments s)
          (currentMeasureIndex s) (vocalAudioMap s)
          (Some (mkTimeout (4 * (60 / tempo s) * 1000) (4 * (60 / tempo s))
                           (List.length (measures sc))))
          (now + 0.1)
          (audio s ++ arrange (selectedInstruments s) (vocalAudioMap s)
                              (tempo s) (currentMeasureIndex s)
                              (now + 0.1) m)).
Proof.
  intros Hp Hs Hm.
  assert (Hh : handle PlayToggle s = set_isPlaying true (set_anchor 0 s)).
  { cbn [handle]. rewrite Hp. cbn. now rewrite Hp. }
  unfold step. rewrite Hh.
  rewrite depsChanged_playing by (cbn; rewrite Hp; discriminate).
  rewrite (runEffect_playing now _ sc m) by (cbn; first [assumption | reflexivity]).
  rewrite anchorAt_unset by reflexivity.
  cbn. rewrite Hs. reflexivity.
Qed.

(** The play button while playing: the pause. *)
Lemma step_pause (now : R) (s : AppState) :
  isPlaying s = true ->
  step now PlayToggle s =
  Some (mkApp (score s) false (tempo s) (selectedInstruments s)
          (currentMeasureIndex s) (vocalAudioMap s) None
          (measureStartTimeRef s) (audio s)).
Proof.
  intros Hp.
  assert (Hh : handle PlayToggle s = set_isPlaying false s).
  { cbn [handle]. rewrite Hp. cbn. now rewrite Hp. }
  unfold step. rewrite Hh.
  rewrite depsChanged_playing by (cbn; rewrite Hp; discriminate).
  rewrite runEffect_stopped by reflexivity. reflexivity.
Qed.

End SchedulerMore.

Section PerformanceMore.

Import Score App Playback.
Local Open Scope list_scope.
Local Open Scope R_scope.

Lemma skipn_nth_error {A : Type} (l : list A) : forall k x,
  nth_error l k = Some x -> skipn k l = x :: skipn (S k) l.
Proof.
  induction l as [|y l IH]; intros k x H.
  - destruct k; discriminate.
  - destruct k as [|k].
    + injection H as <-. reflexivity.
    + cbn [skipn nth_error] in *. now apply IH.
Qed.

Lemma measure_seconds_pos (tp : R) : 0 < tp -> 0 < 4 * (60 / tp).
Proof.
  intros H. apply Rmult_lt_0_compat; [lra|].
  apply Rmult_lt_0_compat; [lra|now apply Rinv_0_lt_compat].
Qed.

(** From a measure that is playing to the end of the score: the timeout
    fires once for each measure left, the measures after the current one
    are arranged back to back, and playback stops at index 0. *)
Lemma playing_rest (sc : ScoreData) (tp : R) (sel : list InstrumentType)
    (vocals : nat -> option string) :
  0 < tp ->
  forall nows s,
    isPlaying s = true -> score s = Some sc -> tempo s = tp ->
    selectedInstruments s = sel -> vocalAudioMap s = vocals ->
    playbackTimerRef s =
      Some (mkTimeout (4 * (60 / tp) * 1000) (4 * (60 / tp))
                      (List.length (measures sc))) ->
    0 < measureStartTimeRef s ->
    (currentMeasureIndex s < List.length (measures sc))%nat ->
    List.length nows
    = (List.length (measures sc) - currentMeasureIndex s)%nat ->
    exists s',
      run (fires nows) s = Some s' /\
      isPlaying s' = false /\ currentMeasureIndex s' = 0%nat /\
      playbackTimerRef s' = None /\ score s' = Some sc /\ tempo s' = tp /\
      selectedInstruments s' = sel /\ vocalAudioMap s' = vocals /\
      measureStartTimeRef s'
      = measureStartTimeRef s + INR (List.length nows) * (4 * (60 / tp)) /\
      audio s' =
        audio s ++ performance sel vocals tp (S (currentMeasureIndex s))
                     (measureStartTimeRef s + 4 * (60 / tp))
                     (skipn (S (currentMeasureIndex s)) (measures sc)).
Proof.
  intros Htp. pose proof (measure_seconds_pos tp Htp) as HD.
  induction nows as [|now rest IH]; intros s Hp Hs Ht Hsel Hv Htimer Ha Hk Hlen.
  - cbn in Hlen. lia.
  - destruct s as [sc0 p t0 sel0 k v timer a calls].
    cbn [isPlaying score tempo selectedInstruments vocalAudioMap
         playbackTimerRef measureStartTimeRef audio currentMeasureIndex]
      in Hp, Hs, Ht, Hsel, Hv, Htimer, Ha, Hk, Hlen |- *.
    subst p sc0 t0 sel0 v timer. cbn [List.length] in Hlen.
    cbn [fires map run].
    set (s0 := mkApp (Some sc) true tp sel k vocals
                 (Some (mkTimeout (4 * (60 / tp) * 1000) (4 * (60 / tp))
                                  (List.length (measures sc)))) a calls).
    destruct (le_lt_dec (List.length (measures sc)) (k + 1)) as [Hlast|Hnext].
    + rewrite (step_fire_last now s0 sc _ eq_refl eq_refl eq_refl eq_refl
                 Hlast).
      destruct rest as [|now' rest']; [|cbn [List.length] in Hlen; lia].
      cbn [map run]. eexists. split; [reflexivity|].
      cbn [s0 isPlaying currentMeasureIndex playbackTimerRef score tempo
           selectedInstruments vocalAudioMap measureStartTimeRef audio
           measureDuration List.length INR].
      rewrite skipn_all2 by lia. cbn [performance]. rewrite app_nil_r.
      repeat split; try reflexivity. ring.
    + destruct (nth_error (measures sc) (k + 1)) as [m|] eqn:Em.
      2:{ apply nth_error_None in Em. lia. }
      assert (Hanchor : measureStartTimeRef s0
                        + measureDuration
                            (mkTimeout (4 * (60 / tp) * 1000) (4 * (60 / tp))
                                       (List.length (measures sc))) <> 0)
        by (cbn; lra).
      rewrite (step_fire_next now s0 sc _ m eq_refl eq_refl eq_refl eq_refl
                 Em Hanchor).
      cbn [s0 tempo selectedInstruments vocalAudioMap measureStartTimeRef
           audio measureDuration currentMeasureIndex].
      edestruct (IH (mkApp (Some sc) true tp sel (k + 1) vocals
                       (Some (mkTimeout (4 * (60 / tp) * 1000)
                                        (4 * (60 / tp))
                                        (List.length (measures sc))))
                       (a + 4 * (60 / tp))
                       (calls ++ arrange sel vocals tp (k + 1)
                                         (a + 4 * (60 / tp)) m)))
        as (s' & Hrun & H1 & H2 & H3 & H4 & H5 & H6 & H7 & H8 & H9);
        try reflexivity.
      * cbn. lra.
      * cbn. lia.
      * cbn. lia.
      * exists s'.
        cbn [measureStartTimeRef audio currentMeasureIndex] in H8, H9.
        split; [exact Hrun|].
        repeat (split; [assumption|]). split.
        -- rewrite H8. cbn [List.length]. rewrite S_INR. ring.
        -- rewrite H9, <- app_assoc. f_equal.
           replace (S k) with (k + 1)%nat by lia.
           rewrite (skipn_nth_error _ _ _ Em). cbn [performance].
           replace (S (k + 1)) with (k + 1 + 1)%nat by lia.
           reflexivity.
Qed.

(** A whole performance when no call throws.  From a stopped application
    on a measure of
    the score, the play button followed by one firing of the timeout per
    measure left arranges these measures once each, in order and back to
    back (a measure of four beats apart, the first one 0.1 s after the
    press), makes no other call, and ends stopped at index 0 with no
    timeout pending. *)
Theorem whole_performance (s : AppState) (sc : ScoreData) (now0 : R)
    (nows : list R) :
  isPlaying s = false ->
  score s = Some sc ->
  (currentMeasureIndex s < List.length (measures sc))%nat ->
  0 < tempo s ->
  0 <= now0 ->
  List.length nows
  = (List.length (measures sc) - currentMeasureIndex s)%nat ->
  exists s',
    run ((now0, PlayToggle) :: fires nows) s = Some s' /\
    isPlaying s' = false /\
    currentMeasureIndex s' = 0%nat /\
    playbackTimerRef s' = None /\
    measureStartTimeRef s'
    = now0 + 0.1 + INR (List.length nows) * (4 * (60 / tempo s)) /\
    audio s' =
      audio s ++ performance (selectedInstruments s) (vocalAudioMap s)
                   (tempo s) (currentMeasureIndex s) (now0 + 0.1)
                   (skipn (currentMeasureIndex s) (measures sc)).
Proof.
  intros Hp Hs Hk Htp Hnow Hlen.
  destruct (nth_error (measures sc) (currentMeasureIndex s)) as [m|] eqn:Em.
  2:{ apply nth_error_None in Em. lia. }
  cbn [run]. rewrite (step_play now0 s sc m Hp Hs Em).
  edestruct (playing_rest sc (tempo s) (selectedInstruments s)
               (vocalAudioMap s) Htp nows
               (mkApp (Some sc) true (tempo s) (selectedInstruments s)
                  (currentMeasureIndex s) (vocalAudioMap s)
                  (Some (mkTimeout (4 * (60 / tempo s) * 1000)
                                   (4 * (60 / tempo s))
                                   (List.length (measures sc))))
                  (now0 + 0.1)
                  (audio s ++ arrange (selectedInstruments s)
                                (vocalAudioMap s) (tempo s)
                                (currentMeasureIndex s) (now0 + 0.1) m)))
    as (s' & Hrun & H1 & H2 & H3 & _ & _ & _ & _ & H8 & H9);
    try reflexivity; try assumption.
  - cbn. lra.
  - exists s'. cbn [measureStartTimeRef audio currentMeasureIndex] in H8, H9.
    repeat (split; [assumption|]).
    rewrite H9, <- app_assoc. f_equal.
    rewrite (skipn_nth_error _ _ _ Em). reflexivity.
Qed.

Lemma whole_performance_witness :
  exists s',
    run ((0, PlayToggle) :: fires [3; 5; 7; 9]) stoppedState = Some s' /\
    isPlaying s' = false /\
    currentMeasureIndex s' = 0%nat /\
    playbackTimerRef s' = None /\
    measureStartTimeRef s'
    = 0 + 0.1 + INR 4 * (4 * (60 / tempo stoppedState)) /\
    audio s' =
      audio stoppedState
      ++ performance [PIANO; DRUMS] (fun _ => None) 120 0 (0 + 0.1)
           (measures fourMeasures).
Proof.
  refine (whole_performance stoppedState fourMeasures 0 [3; 5; 7; 9]
            eq_refl eq_refl _ _ _ eq_refl).
  - cbn. lia.
  - cbn. lra.
  - lra.
Defined.

(** X19: pausing and resuming.  The pause clears the timeout and makes no
    call; the play button then arranges the measure that was playing once
    more from its beginning, 0.1 s after the press, and arms a timeout of
    a full measure: playback resumes at the top of the measure, not where
    it was paused. *)
Theorem pause_then_resume (s : AppState) (sc : ScoreData) (m : Measure)
    (n1 n2 : R) :
  isPlaying s = true ->
  score s = Some sc ->
  nth_error (measures sc) (currentMeasureIndex s) = Some m ->
  exists s1 s2,
    step n1 PlayToggle s = Some s1 /\
    isPlaying s1 = false /\ playbackTimerRef s1 = None /\
    audio s1 = audio s /\
    currentMeasureIndex s1 = currentMeasureIndex s /\
    step n2 PlayToggle s1 = Some s2 /\
    isPlaying s2 = true /\
    currentMeasureIndex s2 = currentMeasureIndex s /\
    measureStartTimeRef s2 = n2 + 0.1 /\
    playbackTimerRef s2 =
      Some (mkTimeout (4 * (60 / tempo s) * 1000) (4 * (60 / tempo s))
                      (List.length (measures sc))) /\
    audio s2 =
      audio s ++ arrange (selectedInstruments s) (vocalAudioMap s) (tempo s)
                         (currentMeasureIndex s) (n2 + 0.1) m.
Proof.
  intros Hp Hs Hm.
  eexists. eexists. split; [exact (step_pause n1 s Hp)|].
  cbn [isPlaying playbackTimerRef audio currentMeasureIndex].
  repeat (split; [reflexivity|]). split.
  - rewrite (step_play n2 _ sc m); cbn; first [reflexivity | assumption].
  - cbn. repeat split; reflexivity.
Qed.

Lemma pause_then_resume_witness :
  exists s1 s2,
    step 3 PlayToggle armedState = Some s1 /\
    isPlaying s1 = false /\ playbackTimerRef s1 = None /\
    audio s1 = audio armedState /\
    currentMeasureIndex s1 = currentMeasureIndex armedState /\
    step 20 PlayToggle s1 = Some s2 /\
    isPlaying s2 = true /\
    currentMeasureIndex s2 = currentMeasureIndex armedState /\
    measureStartTimeRef s2 = 20 + 0.1 /\
    playbackTimerRef s2 =
      Some (mkTimeout (4 * (60 / tempo armedState) * 1000)
                      (4 * (60 / tempo armedState))
                      (List.length (measures tenMeasures))) /\
    audio s2 =
      audio armedState
      ++ arrange (selectedInstruments armedState) (vocalAudioMap armedState)
                 (tempo armedState) (currentMeasureIndex armedState)
                 (20 + 0.1) scenarioMeasure.
Proof.
  exact (pause_then_resume armedState tenMeasures scenarioMeasure 3 20
           eq_refl eq_refl eq_refl).
Defined.

(** X20: the reset button stops playback and rewinds: whatever the state,
    afterwards playback is off, the measure index and the start anchor are
    0, no timeout is pending, and no call was made on the audio engine. *)
Theorem reset_rewinds (now : R) (s : AppState) :
  timerConsistent s ->
  exists s',
    step now ResetSession s = Some s' /\
    isPlaying s' = false /\ currentMeasureIndex s' = 0%nat /\
    measureStartTimeRef s' = 0 /\ playbackTimerRef s' = None /\
    audio s' = audio s /\ tempo s' = tempo s /\ score s' = score s.
Proof.
  intros Hc. unfold step.
  destruct (depsChanged ResetSession s (handle ResetSession s)) eqn:Hd.
  - rewrite runEffect_stopped by reflexivity.
    eexists. split; [reflexivity|]. cbn. repeat split.
  - eexists. split; [reflexivity|]. cbn. repeat split.
    unfold depsChanged in Hd. cbn in Hd.
    destruct (isPlaying s) eqn:Hp; [discriminate|].
    destruct (playbackTimerRef s) as [t|] eqn:Et; [|reflexivity].
    destruct (Hc t Et) as [Hp' _]. congruence.
Qed.

Lemma reset_rewinds_witness :
  exists s',
    step 4 ResetSession armedState = Some s' /\
    isPlaying s' = false /\ currentMeasureIndex s' = 0%nat /\
    measureStartTimeRef s' = 0 /\ playbackTimerRef s' = None /\
    audio s' = audio armedState /\ tempo s' = tempo armedState /\
    score s' = score armedState.
Proof.
  apply (reset_rewinds 4 armedState).
  intros t [= <-]. split; [reflexivity|].
  exists tenMeasures. split; reflexivity.
Defined.

(** When no call throws, an instrument toggled while a measure is playing
    takes effect at
    once: the measure that is playing is arranged again, at the same
    anchor, with the new selection, and the timeout is armed anew for a
    full measure. *)
Theorem toggle_while_playing (now : R) (i : InstrumentType) (s : AppState)
    (sc : ScoreData) (m : Measure) :
  isPlaying s = true ->
  score s = Some sc ->
  nth_error (measures sc) (currentMeasureIndex s) = Some m ->
  measureStartTimeRef s <> 0 ->
  exists s',
    step now (ToggleInstrument i) s = Some s' /\
    selectedInstruments s' = toggle i (selectedInstruments s) /\
    isPlaying s' = true /\
    currentMeasureIndex s' = currentMeasureIndex s /\
    measureStartTimeRef s' = measureStartTimeRef s /\
    playbackTimerRef s' =
      Some (mkTimeout (4 * (60 / tempo s) * 1000) (4 * (60 / tempo s))
                      (List.length (measures sc))) /\
    audio s' =
      audio s ++ arrange (toggle i (selectedInstruments s)) (vocalAudioMap s)
                         (tempo s) (currentMeasureIndex s)
                         (measureStartTimeRef s) m.
Proof.
  intros Hp Hs Hm Ha. unfold step.
  rewrite depsChanged_toggle.
  rewrite (runEffect_playing now _ sc m) by (cbn; assumption).
  rewrite anchorAt_set by (cbn; assumption).
  eexists. split; [reflexivity|]. cbn. rewrite Hp. repeat split.
Qed.

Lemma toggle_while_playing_witness :
  exists s',
    step 3 (ToggleInstrument BASS) armedState = Some s' /\
    selectedInstruments s' = toggle BASS (selectedInstruments armedState) /\
    isPlaying s' = true /\
    currentMeasureIndex s' = currentMeasureIndex armedState /\
    measureStartTimeRef s' = measureStartTimeRef armedState /\
    playbackTimerRef s' =
      Some (mkTimeout (4 * (60 / tempo armedState) * 1000)
                      (4 * (60 / tempo armedState))
                      (List.length (measures tenMeasures))) /\
    audio s' =
      audio armedState
      ++ arrange (toggle BASS (selectedInstruments armedState))
                 (vocalAudioMap armedState) (tempo armedState)
                 (currentMeasureIndex armedState)
                 (measureStartTimeRef armedState) scenarioMeasure.
Proof.
  refine (toggle_while_playing 3 BASS armedState tenMeasures scenarioMeasure
            eq_refl eq_refl eq_refl _).
  cbn. lra.
Defined.

End PerformanceMore.

Section RunMore.

Import Score App Playback.
Local Open Scope list_scope.
Local Open Scope R_scope.

Lemma handle_keeps (i : Input) (s : AppState) :
  score (handle i s) = score s /\
  vocalAudioMap (handle i s) = vocalAudioMap s /\
  audio (handle i s) = audio s.
Proof.
  destruct i; cbn [handle]; try (repeat split; reflexivity).
  - destruct (playbackTimerRef s) as [t|]; [|repeat split].
    unfold timerCallback. destruct (_ <=? _)%nat; repeat split.
  - destruct (isPlaying s); repeat split.
Qed.

Lemma runEffect_keeps (now : R) (s s' : AppState) :
  runEffect now s = Some s' ->
  score s' = score s /\ vocalAudioMap s' = vocalAudioMap s /\
  currentMeasureIndex s' = currentMeasureIndex s /\
  exists more, audio s' = audio s ++ more.
Proof.
  destruct s as [sc0 p t0 sel0 k v timer a calls]. unfold runEffect.
  cbn [isPlaying score set_timer currentMeasureIndex audio vocalAudioMap].
  destruct p.
  2:{ intros [= <-]. do 3 (split; [reflexivity|]).
      exists []. cbn. now rewrite app_nil_r. }
  destruct sc0 as [sc|].
  2:{ intros [= <-]. do 3 (split; [reflexivity|]).
      exists []. cbn. now rewrite app_nil_r. }
  destruct (playMeasure _ _ _) as [more|]; [|discriminate].
  intros [= <-]. do 3 (split; [reflexivity|]). now exists more.
Qed.

Lemma step_keeps (now : R) (i : Input) (s s' : AppState) :
  step now i s = Some s' ->
  score s' = score s /\ vocalAudioMap s' = vocalAudioMap s /\
  exists more, audio s' = audio s ++ more.
Proof.
  unfold step. destruct (handle_keeps i s) as (H1 & H2 & H3).
  destruct (depsChanged i s (handle i s)).
  - intros H. apply runEffect_keeps in H as (E1 & E2 & _ & more & E3).
    rewrite E1, E2, E3, H1, H2, H3. do 2 (split; [reflexivity|]).
    now exists more.
  - intros [= <-]. rewrite H1, H2, H3. do 2 (split; [reflexivity|]).
    exists []. now rewrite app_nil_r.
Qed.

(** Calls made on the audio engine are never taken back: along any
    run the calls made before are kept, in order, and new ones are only
    added after them; stopping, pausing and resetting cancel the timeout
    and nothing that was scheduled.  The score and the vocal map are not
    touched. *)
Theorem run_audio_only_grows (ins : list (R * Input)) (s s' : AppState) :
  run ins s = Some s' ->
  (exists more, audio s' = audio s ++ more) /\
  score s' = score s /\ vocalAudioMap s' = vocalAudioMap s.
Proof.
  revert s. induction ins as [|[now i] ins IH]; intros s; cbn [run].
  - intros [= <-]. split; [|split; reflexivity].
    exists []. now rewrite app_nil_r.
  - destruct (step now i s) as [s1|] eqn:E; [|discriminate].
    intros H. apply IH in H as ((more' & Ha) & Hs & Hv).
    apply step_keeps in E as (Hs1 & Hv1 & more & Ha1).
    rewrite Ha, Ha1, Hs, Hv, Hs1, Hv1, <- app_assoc.
    split; [|split; reflexivity]. now exists (more ++ more').
Qed.

Lemma run_audio_only_grows_witness :
  (exists more,
     audio (set_tempo (tempoPlus (tempoPlus 238)) idleState)
     = audio idleState ++ more) /\
  score (set_tempo (tempoPlus (tempoPlus 238)) idleState) = score idleState /\
  vocalAudioMap (set_tempo (tempoPlus (tempoPlus 238)) idleState)
  = vocalAudioMap idleState.
Proof.
  refine (run_audio_only_grows [(0, TempoPlus); (1, TempoPlus)] idleState
            _ _).
  unfold run, step.
  destruct (depsChanged TempoPlus idleState (handle TempoPlus idleState));
    cbn [handle runEffect idleState tempo set_tempo set_timer isPlaying
         score selectedInstruments currentMeasureIndex vocalAudioMap
         playbackTimerRef measureStartTimeRef audio];
    match goal with
    | |- match (if ?c then _ else _) with _ => _ end = _ => destruct c
    end; reflexivity.
Defined.

(** X23: along any run a pending timeout belongs to the playback going on:
    playback is on, and the timeout was armed for the score that is
    loaded. *)
Theorem run_timerConsistent (ins : list (R * Input)) (s s' : AppState) :
  timerConsistent s -> run ins s = Some s' -> timerConsistent s'.
Proof.
  revert s. induction ins as [|[now i] ins IH]; intros s Hc; cbn [run].
  - now intros [= <-].
  - destruct (step now i s) as [s1|] eqn:E; [|discriminate].
    apply IH. exact (step_timerConsistent now i s s1 Hc E).
Qed.

Lemma run_timerConsistent_witness :
  timerConsistent
    (mkApp (Some fourMeasures) false 90 [PIANO; DRUMS] 0 (fun _ => None)
           None (8.1 + 4 * (60 / 90)) []).
Proof.
  refine (run_timerConsistent [(9, TimerFires)] lastMeasureState _ _ _).
  - intros t [= <-]. split; [reflexivity|].
    exists fourMeasures. split; reflexivity.
  - cbn [run].
    rewrite (step_fire_last 9 lastMeasureState fourMeasures _
               eq_refl eq_refl eq_refl eq_refl); [reflexivity|].
    cbn. lia.
Defined.

Lemma handle_index_in_range (i : Input) (s : AppState) (sc : ScoreData) :
  timerConsistent s -> score s = Some sc ->
  (currentMeasureIndex s < List.length (measures sc))%nat ->
  (currentMeasureIndex (handle i s) < List.length (measures sc))%nat.
Proof.
  intros Hc Hs Hk. destruct i; cbn [handle]; try assumption.
  - destruct (playbackTimerRef s) as [t|] eqn:Et; [|assumption].
    destruct (Hc t Et) as (_ & sc' & Hs' & Hm).
    assert (sc' = sc) by congruence. subst sc'.
    unfold timerCallback.
    cbn [currentMeasureIndex set_anchor set_timer]. rewrite Hm.
    destruct (Nat.leb_spec (List.length (measures sc))
                           (currentMeasureIndex s + 1)); cbn; lia.
  - destruct (isPlaying s); cbn; assumption.
  - cbn. lia.
Qed.

Lemma runEffect_in_range (now : R) (s : AppState) (sc : ScoreData) :
  score s = Some sc ->
  (currentMeasureIndex s < List.length (measures sc))%nat ->
  exists s', runEffect now s = Some s'.
Proof.
  intros Hs Hk.
  destruct (nth_error (measures sc) (currentMeasureIndex s)) as [m|] eqn:Em.
  2:{ apply nth_error_None in Em. lia. }
  destruct (isPlaying s) eqn:Hp.
  - rewrite (runEffect_playing now s sc m Hp Hs Em). eauto.
  - rewrite (runEffect_stopped now s Hp). eauto.
Qed.

Lemma step_in_range (now : R) (i : Input) (s : AppState) (sc : ScoreData) :
  timerConsistent s -> score s = Some sc ->
  (currentMeasureIndex s < List.length (measures sc))%nat ->
  exists s',
    step now i s = Some s' /\ timerConsistent s' /\ score s' = Some sc /\
    (currentMeasureIndex s' < List.length (measures sc))%nat.
Proof.
  intros Hc Hs Hk.
  pose proof (handle_index_in_range i s sc Hc Hs Hk) as Hk'.
  destruct (handle_keeps i s) as (Hs' & _).
  rewrite Hs in Hs'.
  assert (Hex : exists s', step now i s = Some s').
  { unfold step. destruct (depsChanged i s (handle i s)); [|eauto].
    exact (runEffect_in_range now (handle i s) sc Hs' Hk'). }
  destruct Hex as [s' E]. exists s'. split; [exact E|].
  split; [exact (step_timerConsistent now i s s' Hc E)|].
  revert E. unfold step. destruct (depsChanged i s (handle i s)).
  - intros E. apply runEffect_keeps in E as (E1 & _ & E3 & _).
    rewrite E1, E3. auto.
  - intros [= <-]. auto.
Qed.

(** Every call returning: once a score is loaded and the measure index is
    inside it, no
    input makes the scheduling effect throw: every run of timer firings,
    tempo and play buttons, resets and instrument toggles goes through,
    and the measure index stays inside the score. *)
Theorem run_never_throws (ins : list (R * Input)) (s : AppState)
    (sc : ScoreData) :
  timerConsistent s ->
  score s = Some sc ->
  (currentMeasureIndex s < List.length (measures sc))%nat ->
  exists s',
    run ins s = Some s' /\ score s' = Some sc /\
    (currentMeasureIndex s' < List.length (measures sc))%nat.
Proof.
  revert s. induction ins as [|[now i] ins IH]; intros s Hc Hs Hk; cbn [run].
  - eauto.
  - destruct (step_in_range now i s sc Hc Hs Hk)
      as (s1 & E & Hc1 & Hs1 & Hk1).
    rewrite E. exact (IH s1 Hc1 Hs1 Hk1).
Qed.

Lemma run_never_throws_witness :
  exists s',
    run [(9, TimerFires); (9.5, PlayToggle); (10, ToggleInstrument BASS);
         (11, TempoMinus); (12, ResetSession)] lastMeasureState = Some s' /\
    score s' = Some fourMeasures /\
    (currentMeasureIndex s' < List.length (measures fourMeasures))%nat.
Proof.
  refine (run_never_throws _ lastMeasureState fourMeasures _ eq_refl _).
  - intros t [= <-]. split; [reflexivity|].
    exists fourMeasures. split; reflexivity.
  - cbn. lia.
Defined.

(** X25: the play button on a measure that does not exist (a score with no
    measure, or an index past the end of the score): the scheduling effect
    throws exactly when the piano, the guitar or the bass is selected;
    otherwise playback starts with the drums and the vocals alone. *)
Theorem play_missing_measure (now : R) (s : AppState) (sc : ScoreData) :
  isPlaying s = false ->
  score s = Some sc ->
  nth_error (measures sc) (currentMeasureIndex s) = None ->
  (step now PlayToggle s = None <->
   has (selectedInstruments s) PIANO || has (selectedInstruments s) GUITAR
   || has (selectedInstruments s) BASS = true).
Proof.
  intros Hp Hs Hm.
  assert (Hh : handle PlayToggle s = set_isPlaying true (set_anchor 0 s)).
  { cbn [handle]. rewrite Hp. cbn. now rewrite Hp. }
  unfold step. rewrite Hh.
  rewrite depsChanged_playing by (cbn; rewrite Hp; discriminate).
  unfold runEffect, playMeasure.
  cbn [isPlaying score set_timer set_isPlaying set_anchor
       currentMeasureIndex selectedInstruments].
  rewrite Hs, Hm.
  destruct (has (selectedInstruments s) PIANO
            || has (selectedInstruments s) GUITAR
            || has (selectedInstruments s) BASS); split;
    (reflexivity || discriminate).
Qed.

Lemma play_missing_measure_witness :
  step 0 PlayToggle emptyScoreState = None <->
  has (selectedInstruments emptyScoreState) PIANO
  || has (selectedInstruments emptyScoreState) GUITAR
  || has (selectedInstruments emptyScoreState) BASS = true.
Proof.
  exact (play_missing_measure 0 emptyScoreState
           (mkScore "Blank" 90 "4/4" "C" []) eq_refl eq_refl eq_refl).
Defined.

(** When no call throws: the timeout firing before the last measure.  The
    start anchor
    moves on by the duration the timeout was armed with, the next measure
    is arranged at the new anchor with the tempo and the selection of now,
    and a timeout of a measure at the tempo of now is armed. *)
Theorem timer_fires_moves_on (now : R) (s : AppState) (sc : ScoreData)
    (t : Timeout) (m : Measure) :
  isPlaying s = true ->
  score s = Some sc ->
  playbackTimerRef s = Some t ->
  measureCount t = List.length (measures sc) ->
  nth_error (measures sc) (currentMeasureIndex s + 1) = Some m ->
  measureStartTimeRef s + measureDuration t <> 0 ->
  exists s',
    step now TimerFires s = Some s' /\
    isPlaying s' = true /\
    currentMeasureIndex s' = (currentMeasureIndex s + 1)%nat /\
    measureStartTimeRef s' = measureStartTimeRef s + measureDuration t /\
    playbackTimerRef s' =
      Some (mkTimeout (4 * (60 / tempo s) * 1000) (4 * (60 / tempo s))
                      (List.length (measures sc))) /\
    audio s' =
      audio s ++ arrange (selectedInstruments s) (vocalAudioMap s) (tempo s)
                         (currentMeasureIndex s + 1)
                         (measureStartTimeRef s + measureDuration t) m.
Proof.
  intros Hp Hs Ht Hc Hm Ha.
  eexists. split; [exact (step_fire_next now s sc t m Hp Hs Ht Hc Hm Ha)|].
  cbn. repeat split.
Qed.

Lemma timer_fires_moves_on_witness :
  exists s',
    step 5 TimerFires armedState = Some s' /\
    isPlaying s' = true /\
    currentMeasureIndex s' = (1 + 1)%nat /\
    measureStartTimeRef s' = 2.5 + 4 * (60 / 90) /\
    playbackTimerRef s' =
      Some (mkTimeout (4 * (60 / 90) * 1000) (4 * (60 / 90)) 10) /\
    audio s' =
      [] ++ arrange [PIANO; DRUMS] (fun _ => None) 90 (1 + 1)
                    (2.5 + 4 * (60 / 90)) scenarioMeasure.
Proof.
  refine (timer_fires_moves_on 5 armedState tenMeasures _ scenarioMeasure
            eq_refl eq_refl eq_refl eq_refl eq_refl _).
  cbn. lra.
Defined.

End RunMore.

(** ** Vocal playback adapter *)

Section VocalMore.

Import Vocal.

Lemma playVocalBuffer_after_atob_witness :
  playVocalBuffer nat (fun bytes => Some (List.length bytes)) "TWFu" 1
  = Resolved [SourceStart 3%nat 1%R].
Proof.
  exact (proj1 (playVocalBuffer_after_atob nat
                  (fun bytes => Some (List.length bytes)) "TWFu" "Man" 1
                  eq_refl) 3%nat eq_refl).
Defined.

End VocalMore.

(** * The calls with the exceptions of the engine *)

Section LiveFacts.

Import Score App Playback.
Local Open Scope list_scope.
Local Open Scope R_scope.

Lemma negative_false (t : R) : 0 <= t -> Live.negative t = false.
Proof.
  intros H. unfold Live.negative. destruct (Rlt_dec t 0); [lra|reflexivity].
Qed.

Lemma playNote_returned (p : string) (d t : R) :
  Live.resolves p = true -> 0 <= t -> 0 <= t + d ->
  Live.playNote p d t = Live.Returned.
Proof.
  unfold Live.resolves, Live.playNote. intros Hp Ht Hd.
  destruct (Pitch.getFrequency p); [|discriminate].
  now rewrite !negative_false.
Qed.

Lemma playNote_unresolved (p : string) (d t : R) :
  Live.resolves p = false -> Live.playNote p d t = Live.Threw "TypeError".
Proof.
  unfold Live.resolves, Live.playNote.
  destruct (Pitch.getFrequency p); [discriminate|reflexivity].
Qed.

Lemma resolves_root (chord : string) :
  Live.resolves (charAt0 chord ++ "2") = true.
Proof.
  unfold Live.resolves. destruct (getFrequency_root chord) as [r ->].
  reflexivity.
Qed.

(** When every call returns, all of them are made. *)
Lemma perform_all (cs : list AudioCall) :
  (forall c, In c cs -> Live.call c = Live.Returned) ->
  Live.perform cs = (cs, None).
Proof.
  induction cs as [|c cs IH]; intros H; cbn [Live.perform]; [reflexivity|].
  rewrite (H c) by now left.
  rewrite IH by (intros c' Hc'; apply H; now right). reflexivity.
Qed.

(** The calls that returned are the calls before the first one that
    throws. *)
Lemma perform_stops (pre post : list AudioCall) (c : AudioCall)
    (e : string) :
  (forall x, In x pre -> Live.call x = Live.Returned) ->
  Live.call c = Live.Threw e ->
  Live.perform (pre ++ c :: post) = (pre, Some e).
Proof.
  induction pre as [|x pre IH]; intros H Hc; cbn [Live.perform app].
  - now rewrite Hc.
  - rewrite (H x) by now left.
    rewrite IH by (try assumption; intros y Hy; apply H; now right).
    reflexivity.
Qed.

(** The calls that returned are a prefix of the calls to make, and all of
    them when nothing was thrown. *)
Lemma perform_prefix (cs : list AudioCall) :
  exists rest,
    cs = fst (Live.perform cs) ++ rest /\
    (snd (Live.perform cs) = None -> rest = []).
Proof.
  induction cs as [|c cs (rest & E & Hn)]; cbn [Live.perform].
  - exists []. auto.
  - destruct (Live.call c).
    + destruct (Live.perform cs) as [done err]. cbn [fst snd] in *.
      exists rest. split; [now rewrite E at 1|exact Hn].
    + exists (c :: cs). split; [reflexivity|discriminate].
Qed.


Lemma melodyLoop_returned inst b st ns : forall off c,
  Forall Live.playableNote ns -> 0 <= b -> 0 <= st -> 0 <= off ->
  In c (melodyLoop inst b st off ns) -> Live.call c = Live.Returned.
Proof.
  induction ns as [|n ns IH]; intros off c Hns Hb Hst Hoff; cbn; [tauto|].
  inversion Hns as [|n' ns' [Hp Hd] Hrest]; subst.
  assert (0 <= duration n * b) by (now apply Rmult_le_pos).
  intros [<-|H'].
  - cbn. apply playNote_returned; [assumption|lra|lra].
  - apply (IH (off + duration n * b)); try assumption. lra.
Qed.

Lemma bassLoop_returned cd st cs : forall i c,
  0 <= cd -> 0 <= st ->
  In c (bassLoop cd st i cs) -> Live.call c = Live.Returned.
Proof.
  induction cs as [|ch cs IH]; intros i c Hcd Hst; cbn; [tauto|].
  intros [<-|H]; [|now apply (IH (S i))].
  assert (0 <= INR i * cd) by (apply Rmult_le_pos; [apply pos_INR|assumption]).
  cbn. apply playNote_returned; [apply resolves_root|lra|lra].
Qed.

Lemma playDrum_returned (ty : DrumType) (t : R) :
  0 <= t -> Live.call (PlayDrum ty t) = Live.Returned.
Proof.
  intros H. cbn. unfold Live.playDrum. now rewrite negative_false.
Qed.

Lemma drumPart_returned sel b st c :
  0 <= b -> 0 <= st ->
  In c (drumPart sel b st) -> Live.call c = Live.Returned.
Proof.
  intros Hb Hst. unfold drumPart. destruct (has sel DRUMS); [|intros []].
  cbn [flat_map seq drumStep app Nat.eqb orb INR In].
  intros H.
  repeat (destruct H as [<-|H]; [apply playDrum_returned; lra|]).
  destruct H.
Qed.

Lemma vocalPart_returned sel vocals index st c :
  In c (vocalPart sel vocals index st) -> Live.call c = Live.Returned.
Proof.
  unfold vocalPart. destruct (vocals index) as [[|ch p]|]; try intros [].
  destruct (has sel MALE_VOCAL || has sel FEMALE_VOCAL); [|intros []].
  intros [<-|[]]. reflexivity.
Qed.

Lemma beat_pos (tempo : R) : 0 < tempo -> 0 < 60 / tempo.
Proof.
  intros H. apply Rmult_lt_0_compat; [lra|now apply Rinv_0_lt_compat].
Qed.

(** On a playable measure, at a positive tempo and a start time that is
    not negative, every call of the measure returns. *)
Lemma arrange_returned sel vocals tempo index st m c :
  Live.playable m -> 0 < tempo -> 0 <= st ->
  In c (arrange sel vocals tempo index st m) ->
  Live.call c = Live.Returned.
Proof.
  intros Hm Ht Hst. pose proof (beat_pos tempo Ht) as Hb.
  unfold arrange. rewrite !in_app_iff. intros [H|[H|[H|H]]].
  - unfold melodyPart in H.
    destruct (has sel PIANO || has sel GUITAR); [|destruct H].
    refine (melodyLoop_returned _ (60 / tempo) st (melody m) 0 c Hm _ Hst _ H);
      lra.
  - unfold bassPart in H.
    destruct (has sel BASS && (0 <? List.length (chords m))%nat) eqn:E;
      [|destruct H].
    apply andb_prop in E as [_ E]. apply Nat.ltb_lt in E.
    refine (bassLoop_returned _ _ _ 0%nat c _ Hst H).
    apply Rmult_le_pos; [lra|]. left. apply Rinv_0_lt_compat.
    now apply lt_0_INR.
  - apply (drumPart_returned sel (60 / tempo) st); (lra || assumption).
  - exact (vocalPart_returned _ _ _ _ _ H).
Qed.

Lemma arranged_playable sel vocals tempo index st m :
  Live.playable m -> 0 < tempo -> 0 <= st ->
  Live.arranged sel vocals tempo index st m
  = (arrange sel vocals tempo index st m, None).
Proof.
  intros Hm Ht Hst. unfold Live.arranged. apply perform_all.
  intros c. now apply arrange_returned.
Qed.

End LiveFacts.

Section LiveEffect.

Import Score App Playback.
Local Open Scope list_scope.
Local Open Scope R_scope.

Lemma melodyLoop_app inst b st l1 : forall off l2,
  exists off',
    melodyLoop inst b st off (l1 ++ l2)
    = melodyLoop inst b st off l1 ++ melodyLoop inst b st off' l2.
Proof.
  induction l1 as [|n l1 IH]; intros off l2; cbn [app melodyLoop].
  - now exists off.
  - destruct (IH (off + duration n * b) l2) as [off' E].
    exists off'. now rewrite E.
Qed.

(** A melody note whose pitch does not resolve ends the measure: the
    tones of the notes before it are the only calls that return. *)
Lemma arranged_unresolved sel vocals tempo index st m pre bad post :
  has sel PIANO || has sel GUITAR = true ->
  melody m = pre ++ bad :: post ->
  Forall Live.playableNote pre ->
  Live.resolves (pitch bad) = false ->
  0 < tempo -> 0 <= st ->
  Live.arranged sel vocals tempo index st m
  = (melodyLoop (if has sel PIANO then PIANO else GUITAR) (60 / tempo) st 0
                pre,
     Some "TypeError").
Proof.
  intros Hsel Hm Hpre Hbad Ht Hst. pose proof (beat_pos tempo Ht) as Hb.
  unfold Live.arranged, arrange, melodyPart. rewrite Hsel, Hm.
  destruct (melodyLoop_app (if has sel PIANO then PIANO else GUITAR)
              (60 / tempo) st pre 0 (bad :: post)) as [off' ->].
  cbn [melodyLoop]. rewrite <- app_assoc. cbn [app].
  apply perform_stops.
  - intros c Hc.
    refine (melodyLoop_returned _ (60 / tempo) st pre 0 c Hpre _ Hst _ Hc);
      lra.
  - cbn. now apply playNote_unresolved.
Qed.

Lemma resolves_Cb4 : Live.resolves "Cb4" = false.
Proof. reflexivity. Qed.

(** The effect with the exceptions of the engine gives what the effect
    gives when every call returns, as long as it runs at a positive tempo,
    from a start time that is not negative, on a playable measure. *)
Lemma live_runEffect_eq (now : R) (s : AppState) :
  (isPlaying s = true -> forall sc, score s = Some sc ->
     0 < tempo s /\ 0 <= anchorAt now s /\
     forall m, nth_error (measures sc) (currentMeasureIndex s) = Some m ->
               Live.playable m) ->
  Live.runEffect now s = runEffect now s.
Proof.
  destruct s as [sc0 p t0 sel0 k v timer a calls].
  unfold Live.runEffect, runEffect, Live.playMeasure, playMeasure, anchorAt.
  cbn [isPlaying score set_timer currentMeasureIndex audio vocalAudioMap
       tempo selectedInstruments measureStartTimeRef set_audio set_anchor
       playbackTimerRef].
  intros H. destruct p; [|reflexivity].
  destruct sc0 as [sc|]; [|reflexivity].
  destruct (H eq_refl sc eq_refl) as (Ht & Ha & Hm).
  pose proof (beat_pos t0 Ht) as Hb.
  destruct (nth_error (measures sc) k) as [m|].
  - pose proof (arranged_playable sel0 v t0 k
                  (if Req_dec_T a 0 then now + 0.1 else a) m
                  (Hm m eq_refl) Ht Ha) as E.
    unfold Live.arranged in E. rewrite E. reflexivity.
  - destruct (has sel0 PIANO || has sel0 GUITAR || has sel0 BASS);
      [reflexivity|].
    rewrite perform_all; [reflexivity|].
    intros c Hc. apply in_app_iff in Hc as [Hc|Hc].
    + apply (drumPart_returned sel0 (60 / t0)
               (if Req_dec_T a 0 then now + 0.1 else a)); (lra || assumption).
    + exact (vocalPart_returned _ _ _ _ _ Hc).
Qed.



Lemma live_step_eq (now : R) (i : Input) (s : AppState) :
  (isPlaying (handle i s) = true -> forall sc, score (handle i s) = Some sc ->
     0 < tempo (handle i s) /\ 0 <= anchorAt now (handle i s) /\
     forall m, nth_error (measures sc) (currentMeasureIndex (handle i s))
               = Some m -> Live.playable m) ->
  Live.step now i s = step now i s.
Proof.
  intros H. unfold Live.step, step.
  destruct (depsChanged i s (handle i s)); [|reflexivity].
  now apply live_runEffect_eq.
Qed.

End LiveEffect.

Section LiveClaims.

Import Score App Playback.
Local Open Scope list_scope.
Local Open Scope R_scope.

(** C4: with the piano selected at tempo 120, a measure whose melody is
    Cb4 then C4 gets no tone at all.  [getFrequency] gives [NaN] for Cb4,
    [playNote] throws [TypeError] when it sets that frequency, and
    [playMeasure] is left before the second note is reached: neither of
    the two notes is scheduled, where the claim has one tone per note. *)
Theorem melody_with_Cb_schedules_no_tone :
  Pitch.getFrequency "Cb4" = Pitch.NaN /\
  Live.arranged [PIANO] (fun _ => None) 120 0 10 Live.flatMeasure
  = ([], Some "TypeError") /\
  melodyCalls (fst (Live.arranged [PIANO] (fun _ => None) 120 0 10
                                  Live.flatMeasure)) = [] /\
  List.length (melody Live.flatMeasure) = 2%nat.
Proof.
  assert (E : Live.arranged [PIANO] (fun _ => None) 120 0 10 Live.flatMeasure
              = ([], Some "TypeError")).
  { rewrite (arranged_unresolved [PIANO] (fun _ => None) 120 0 10
               Live.flatMeasure [] (mkNote "Cb4" 1 None)
               [mkNote "C4" 1 None] eq_refl eq_refl (Forall_nil _)
               resolves_Cb4) by lra.
    reflexivity. }
  rewrite E. repeat split; reflexivity.
Qed.

(** C5: with the piano and the bass selected, a measure with the chords C
    and G whose melody starts on Cb4 gets no bass tone.  The exception of
    the first melody note leaves [playMeasure] before the chords are
    reached, where the claim has one bass tone per chord. *)
Theorem bass_not_reached_after_Cb :
  has [PIANO; BASS] BASS = true /\
  List.length (chords Live.flatMeasure) = 2%nat /\
  Live.arranged [PIANO; BASS] (fun _ => None) 120 0 10 Live.flatMeasure
  = ([], Some "TypeError") /\
  bassCalls (fst (Live.arranged [PIANO; BASS] (fun _ => None) 120 0 10
                                Live.flatMeasure)) = [].
Proof.
  assert (E : Live.arranged [PIANO; BASS] (fun _ => None) 120 0 10
                Live.flatMeasure = ([], Some "TypeError")).
  { rewrite (arranged_unresolved [PIANO; BASS] (fun _ => None) 120 0 10
               Live.flatMeasure [] (mkNote "Cb4" 1 None)
               [mkNote "C4" 1 None] eq_refl eq_refl (Forall_nil _)
               resolves_Cb4) by lra.
    reflexivity. }
  rewrite E. repeat split; reflexivity.
Qed.

(** C6: with the piano and the drums selected, the selection the
    application starts with, a measure whose melody starts on Cb4 gets no
    drum hit.  The exception of the first melody note leaves [playMeasure]
    before the drum loop is reached, where the claim has eight hi-hats,
    two kicks and two snares. *)
Theorem drums_not_reached_after_Cb :
  has [PIANO; DRUMS] DRUMS = true /\
  Live.arranged [PIANO; DRUMS] (fun _ => None) 120 0 10 Live.flatMeasure
  = ([], Some "TypeError") /\
  drumTimes hihat (fst (Live.arranged [PIANO; DRUMS] (fun _ => None) 120 0 10
                                      Live.flatMeasure)) = [] /\
  drumTimes kick (fst (Live.arranged [PIANO; DRUMS] (fun _ => None) 120 0 10
                                     Live.flatMeasure)) = [] /\
  drumTimes snare (fst (Live.arranged [PIANO; DRUMS] (fun _ => None) 120 0 10
                                      Live.flatMeasure)) = [].
Proof.
  assert (E : Live.arranged [PIANO; DRUMS] (fun _ => None) 120 0 10
                Live.flatMeasure = ([], Some "TypeError")).
  { rewrite (arranged_unresolved [PIANO; DRUMS] (fun _ => None) 120 0 10
               Live.flatMeasure [] (mkNote "Cb4" 1 None)
               [mkNote "C4" 1 None] eq_refl eq_refl (Forall_nil _)
               resolves_Cb4) by lra.
    reflexivity. }
  rewrite E. repeat split; reflexivity.
Qed.

End LiveClaims.

Section LiveRuns.

Import Score App Playback.
Local Open Scope list_scope.
Local Open Scope R_scope.

Lemma tempo_buttons_pos (t : R) :
  0 < t -> 0 < tempoMinus t /\ 0 < tempoPlus t.
Proof.
  intros Ht. unfold tempoMinus, tempoPlus, Rmax, Rmin.
  destruct (Rle_dec 40 (t - 5)), (Rle_dec 240 (t + 5)); lra.
Qed.

Lemma anchorAt_nonneg (now : R) (s : AppState) :
  0 <= now -> 0 <= measureStartTimeRef s -> 0 <= anchorAt now s.
Proof.
  intros Hn Ha. unfold anchorAt.
  destruct (Req_dec_T (measureStartTimeRef s) 0); lra.
Qed.

(** What the handlers leave of a safe state. *)
Lemma handle_safe (i : Input) (s : AppState) (sc : ScoreData) :
  Live.safe sc s ->
  score (handle i s) = Some sc /\
  (currentMeasureIndex (handle i s) < List.length (measures sc))%nat /\
  0 < tempo (handle i s) /\
  0 <= measureStartTimeRef (handle i s) /\
  (forall t, playbackTimerRef (handle i s) = Some t ->
             0 <= measureDuration t).
Proof.
  intros (Hs & Hpl & Hk & Hc & Ht & Ha & Hd).
  destruct (handle_keeps i s) as (Hs' & _).
  destruct (tempo_buttons_pos _ Ht) as [Hm Hp].
  split; [congruence|].
  split; [exact (handle_index_in_range i s sc Hc Hs Hk)|].
  split; [rewrite handle_tempo; destruct i; assumption|].
  destruct i; cbn [handle]; try (split; assumption).
  - destruct (playbackTimerRef s) as [t|] eqn:Et.
    + pose proof (Hd t eq_refl) as Hdt. unfold timerCallback.
      destruct (_ <=? _)%nat; cbn; (split; [lra|discriminate]).
    + split; [assumption|]. rewrite ?Et. discriminate.
  - destruct (isPlaying s); cbn; (split; [lra || assumption|assumption]).
  - cbn. split; [lra|assumption].
Qed.

Lemma runEffect_shape (now : R) (s s' : AppState) :
  runEffect now s = Some s' ->
  (measureStartTimeRef s' = measureStartTimeRef s \/
   measureStartTimeRef s' = anchorAt now s) /\
  (forall t, playbackTimerRef s' = Some t ->
             measureDuration t = 4 * (60 / tempo s)).
Proof.
  destruct s as [sc0 p t0 sel0 k v timer a calls].
  unfold runEffect, anchorAt.
  cbn [isPlaying score set_timer currentMeasureIndex audio tempo
       measureStartTimeRef].
  destruct p.
  2:{ intros [= <-]. cbn. split; [now left|discriminate]. }
  destruct sc0 as [sc|].
  2:{ intros [= <-]. cbn. split; [now left|discriminate]. }
  destruct (playMeasure _ _ _) as [cs|]; [|discriminate].
  intros [= <-]. cbn. split; [now right|]. now intros t [= <-].
Qed.

(** From a safe state, at a clock time that is not negative, a step goes
    through, no call throws, and the state it gives is safe. *)
Lemma live_step_safe (now : R) (i : Input) (s : AppState)
    (sc : ScoreData) :
  Live.safe sc s -> 0 <= now ->
  exists s',
    Live.step now i s = Some s' /\ step now i s = Some s' /\
    Live.safe sc s'.
Proof.
  intros Hsafe Hnow.
  destruct (handle_safe i s sc Hsafe) as (Hs1 & Hk1 & Ht1 & Ha1 & Hd1).
  destruct Hsafe as (Hs & Hpl & Hk & Hc & Ht & Ha & Hd).
  destruct (step_in_range now i s sc Hc Hs Hk) as (s' & E & Hc' & Hs' & Hk').
  assert (Eq : Live.step now i s = step now i s).
  { apply live_step_eq. intros _ sc' Hsc'.
    assert (sc' = sc) by congruence. subst sc'.
    split; [assumption|]. split; [now apply anchorAt_nonneg|].
    intros m Hm. apply nth_error_In in Hm.
    exact (proj1 (Forall_forall _ _) Hpl m Hm). }
  exists s'. split; [now rewrite Eq|]. split; [exact E|].
  pose proof (step_tempo now i s s' E) as Etempo.
  assert (Ht' : 0 < tempo s') by (now rewrite Etempo).
  unfold step in E. destruct (depsChanged i s (handle i s)).
  - apply runEffect_shape in E as [Ea Ed].
    repeat (split; [assumption|]). split.
    + destruct Ea as [-> | ->]; [assumption|now apply anchorAt_nonneg].
    + intros t Et. rewrite (Ed t Et).
      pose proof (measure_seconds_pos _ Ht1). lra.
  - injection E as <-.
    repeat (split; [assumption|]). assumption.
Qed.

Lemma live_run_safe (ins : list (R * Input)) : forall s sc,
  Live.safe sc s -> Live.clockOk ins ->
  exists s',
    Live.run ins s = Some s' /\ run ins s = Some s' /\ Live.safe sc s'.
Proof.
  induction ins as [|[now i] ins IH]; intros s sc Hsafe Hclock.
  - exists s. auto.
  - inversion Hclock as [|x l Hnow Hrest]; subst. cbn [fst] in Hnow.
    destruct (live_step_safe now i s sc Hsafe Hnow) as (s1 & E1 & E2 & H1).
    cbn [Live.run run]. rewrite E1, E2. exact (IH s1 sc H1 Hrest).
Qed.

End LiveRuns.

Section LiveMore.

Import Score App Playback.
Local Open Scope list_scope.
Local Open Scope R_scope.

Lemma playable_scenarioMeasure : Live.playable scenarioMeasure.
Proof.
  unfold Live.playable, scenarioMeasure. cbn [melody].
  repeat (apply Forall_cons; [split; [reflexivity|cbn; lra]|]).
  apply Forall_nil.
Qed.

Lemma playable_twoChordMeasure : Live.playable twoChordMeasure.
Proof. apply Forall_nil. Qed.

Lemma playable_repeat (m : Measure) (n : nat) :
  Live.playable m -> Forall Live.playable (repeat m n).
Proof.
  intros H. induction n as [|n IH]; cbn; [apply Forall_nil|].
  now apply Forall_cons.
Qed.

Lemma clockOk_fires (nows : list R) :
  Forall (fun now => 0 <= now) nows -> Live.clockOk (fires nows).
Proof.
  unfold Live.clockOk, fires. induction 1; cbn; [apply Forall_nil|].
  now apply Forall_cons.
Qed.

Lemma calls_prefix_nth (f : AudioCall -> bool) (cs done rest : list AudioCall)
    (k : nat) (c : AudioCall) :
  cs = done ++ rest ->
  nth_error (filter f done) k = Some c ->
  nth_error (filter f cs) k = Some c.
Proof.
  intros -> H. rewrite filter_app, nth_error_app1; [exact H|].
  apply nth_error_Some. congruence.
Qed.

(** X28: on a playable measure, at a positive tempo and a start time that
    is not negative, with the piano or the guitar selected, no call throws
    and every melody note gets its tone: the k-th tone starts at the start
    of the measure plus the beats of the notes before it times 60/tempo,
    lasts the beats of its note times 60/tempo, however long the melody
    is, and each tone starts exactly where the one before it stops. *)
Theorem arranged_melody_sequential (sel : list InstrumentType)
    (vocals : nat -> option string) (tempo : R) (index : nat) (st : R)
    (m : Measure) :
  Live.playable m -> 0 < tempo -> 0 <= st ->
  has sel PIANO || has sel GUITAR = true ->
  let beatSeconds := 60 / tempo in
  let inst := if has sel PIANO then PIANO else GUITAR in
  let calls :=
    melodyCalls (fst (Live.arranged sel vocals tempo index st m)) in
  snd (Live.arranged sel vocals tempo index st m) = None /\
  List.length calls = List.length (melody m) /\
  (forall k note, nth_error (melody m) k = Some note ->
     nth_error calls k =
     Some (PlayNote (pitch note) (duration note * beatSeconds) inst
             (st + sumDurations (firstn k (melody m)) * beatSeconds))) /\
  (forall k p d i t p' d' i' t',
     nth_error calls k = Some (PlayNote p d i t) ->
     nth_error calls (S k) = Some (PlayNote p' d' i' t') ->
     t' = t + d).
Proof.
  intros Hm Ht Hst Hsel beatSeconds inst calls. unfold calls.
  rewrite (arranged_playable sel vocals tempo index st m Hm Ht Hst).
  cbn [fst snd]. split; [reflexivity|].
  apply arrange_melody_sequential; [lra|assumption].
Qed.

Lemma arranged_melody_sequential_witness :
  nth_error (melodyCalls (fst (Live.arranged [GUITAR; DRUMS] (fun _ => None)
                                             120 0 10 scenarioMeasure))) 2
  = Some (PlayNote "G4" (2 * (60 / 120)) GUITAR
            (10 + sumDurations (firstn 2 (melody scenarioMeasure))
                  * (60 / 120))).
Proof.
  refine (proj1 (proj2 (proj2
            (arranged_melody_sequential [GUITAR; DRUMS] (fun _ => None)
               120 0 10 scenarioMeasure playable_scenarioMeasure _ _
               eq_refl))) 2%nat (mkNote "G4" 2 None) eq_refl); lra.
Defined.

(** X29: on a playable measure, at a positive tempo and a start time that
    is not negative, with the bass selected and N > 0 chords, no call
    throws and there are N bass tones; the i-th has the first character of
    the i-th chord followed by 2 as its pitch (2 alone for an empty chord
    name), lasts (4 * 60/tempo) / N and starts i such slots after the
    start of the measure; the durations add up to 4 * 60/tempo. *)
Theorem arranged_bass_slots (sel : list InstrumentType)
    (vocals : nat -> option string) (tempo : R) (index : nat) (st : R)
    (m : Measure) :
  Live.playable m -> 0 < tempo -> 0 <= st ->
  has sel BASS = true ->
  chords m <> [] ->
  let beatSeconds := 60 / tempo in
  let N := List.length (chords m) in
  let slot := (4 * beatSeconds) / INR N in
  let calls := bassCalls (fst (Live.arranged sel vocals tempo index st m)) in
  snd (Live.arranged sel vocals tempo index st m) = None /\
  List.length calls = N /\
  (forall i chord, nth_error (chords m) i = Some chord ->
     nth_error calls i =
     Some (PlayNote match chord with
                    | String c _ => String c "2"
                    | EmptyString => "2"
                    end%string
                    slot BASS (st + INR i * slot))) /\
  toneSeconds calls = 4 * beatSeconds.
Proof.
  intros Hm Ht Hst Hsel Hne beatSeconds N slot calls. unfold calls.
  rewrite (arranged_playable sel vocals tempo index st m Hm Ht Hst).
  cbn [fst snd]. split; [reflexivity|].
  destruct (arrange_bass_slots sel vocals tempo index st m
              ltac:(lra) Hsel Hne) as (H1 & H2 & H3).
  split; [exact H1|]. split; [|exact H3].
  intros i chord Hi. rewrite (H2 i chord Hi). now destruct chord.
Qed.

Lemma arranged_bass_slots_witness :
  nth_error (bassCalls (fst (Live.arranged [PIANO; BASS] (fun _ => None)
                                           90 0 10 twoChordMeasure))) 1
  = Some (PlayNote "G2" (4 * (60 / 90) / INR 2) BASS
            (10 + INR 1 * (4 * (60 / 90) / INR 2))).
Proof.
  refine (proj1 (proj2 (proj2
            (arranged_bass_slots [PIANO; BASS] (fun _ => None) 90 0 10
               twoChordMeasure playable_twoChordMeasure _ _ eq_refl _)))
            1%nat "G7"%string eq_refl); (lra || discriminate).
Defined.

(** X30: on a playable measure, at a positive tempo and a start time that
    is not negative, with the drums selected, no call throws and,
    whatever the measure and its drumGroove, there are eight hi-hats, at
    every half beat k * 0.5 * 60/tempo for k = 0..7, two kicks, at 0 and 2
    beats, and two snares, at 1 and 3 beats after the start of the
    measure. *)
Theorem arranged_drum_pattern (sel : list InstrumentType)
    (vocals : nat -> option string) (tempo : R) (index : nat) (st : R)
    (m : Measure) :
  Live.playable m -> 0 < tempo -> 0 <= st ->
  has sel DRUMS = true ->
  let beatSeconds := 60 / tempo in
  let calls := fst (Live.arranged sel vocals tempo index st m) in
  snd (Live.arranged sel vocals tempo index st m) = None /\
  drumTimes hihat calls
  = map (fun k => st + INR k * 0.5 * beatSeconds) (seq 0 8) /\
  drumTimes kick calls = [st + 0 * beatSeconds; st + 2 * beatSeconds] /\
  drumTimes snare calls = [st + 1 * beatSeconds; st + 3 * beatSeconds] /\
  List.length (drumTimes hihat calls) = 8%nat /\
  List.length (drumTimes kick calls) = 2%nat /\
  List.length (drumTimes snare calls) = 2%nat.
Proof.
  intros Hm Ht Hst Hsel beatSeconds calls. unfold calls.
  rewrite (arranged_playable sel vocals tempo index st m Hm Ht Hst).
  cbn [fst snd]. split; [reflexivity|].
  apply arrange_drum_pattern; [lra|assumption].
Qed.

Lemma arranged_drum_pattern_witness :
  drumTimes snare (fst (Live.arranged [PIANO; DRUMS] (fun _ => None) 120 0 10
                                      scenarioMeasure))
  = [10 + 1 * (60 / 120); 10 + 3 * (60 / 120)].
Proof.
  refine (proj1 (proj2 (proj2 (proj2
            (arranged_drum_pattern [PIANO; DRUMS] (fun _ => None) 120 0 10
               scenarioMeasure playable_scenarioMeasure _ _ eq_refl)))));
    lra.
Defined.

(** X31: a melody note whose pitch does not resolve ends the measure.
    With the piano or the guitar selected, when the notes before it are
    playable, [playMeasure] throws [TypeError] at that note: the calls
    that returned are the tones of the notes before it, one each, and no
    tone of a later note, no bass tone, no drum hit and no vocal clip is
    scheduled. *)
Theorem arranged_stops_at_unresolved_note (sel : list InstrumentType)
    (vocals : nat -> option string) (tempo : R) (index : nat) (st : R)
    (m : Measure) (pre post : list Note) (bad : Note) :
  has sel PIANO || has sel GUITAR = true ->
  melody m = pre ++ bad :: post ->
  Forall Live.playableNote pre ->
  Live.resolves (pitch bad) = false ->
  0 < tempo -> 0 <= st ->
  let done := fst (Live.arranged sel vocals tempo index st m) in
  snd (Live.arranged sel vocals tempo index st m) = Some "TypeError" /\
  done = melodyLoop (if has sel PIANO then PIANO else GUITAR) (60 / tempo)
                    st 0 pre /\
  List.length done = List.length pre /\
  bassCalls done = [] /\
  (forall ty, drumTimes ty done = []) /\
  (forall c, In c done -> isMelodyCall c = true).
Proof.
  intros Hsel Hm Hpre Hbad Ht Hst done. unfold done.
  rewrite (arranged_unresolved sel vocals tempo index st m pre bad post
             Hsel Hm Hpre Hbad Ht Hst).
  cbn [fst snd].
  assert (Hi : (if has sel PIANO then PIANO else GUITAR) = PIANO \/
               (if has sel PIANO then PIANO else GUITAR) = GUITAR)
    by (destruct (has sel PIANO); auto).
  destruct (melodyLoop_filter _ (60 / tempo) st 0 pre Hi) as (F1 & F2 & F3).
  split; [reflexivity|]. split; [reflexivity|].
  split; [apply melodyLoop_length|]. split; [exact F2|].
  split; [exact F3|].
  intros c Hc. rewrite <- F1 in Hc. unfold melodyCalls in Hc.
  now apply filter_In in Hc.
Qed.

Lemma arranged_stops_at_unresolved_note_witness :
  fst (Live.arranged [GUITAR; DRUMS] (fun _ => None) 120 0 10
                     Live.midFlatMeasure)
  = melodyLoop GUITAR (60 / 120) 10 0 [mkNote "C4" 1 None].
Proof.
  refine (proj1 (proj2
            (arranged_stops_at_unresolved_note [GUITAR; DRUMS]
               (fun _ => None) 120 0 10 Live.midFlatMeasure
               [mkNote "C4" 1 None] [mkNote "E4" 2 None]
               (mkNote "Cb4" 1 None) eq_refl eq_refl _ eq_refl _ _)));
    try lra.
  apply Forall_cons; [split; [reflexivity|cbn; lra]|apply Forall_nil].
Defined.

(** X11: the calls of a measure that return are never more than one per
    melody note when the piano or the guitar is selected, one per chord
    when the bass is, twelve drum hits when the drums are, and the vocal
    clip; they are exactly that many when no call throws. *)
Theorem arranged_call_count (sel : list InstrumentType)
    (vocals : nat -> option string) (tempo : R) (index : nat) (st : R)
    (m : Measure) :
  (List.length (fst (Live.arranged sel vocals tempo index st m)) <=
   (if has sel PIANO || has sel GUITAR then List.length (melody m) else 0)
   + (if has sel BASS then List.length (chords m) else 0)
   + (if has sel DRUMS then 12 else 0)
   + List.length (vocalPart sel vocals index st))%nat /\
  (snd (Live.arranged sel vocals tempo index st m) = None ->
   List.length (fst (Live.arranged sel vocals tempo index st m)) =
   ((if has sel PIANO || has sel GUITAR then List.length (melody m) else 0)
    + (if has sel BASS then List.length (chords m) else 0)
    + (if has sel DRUMS then 12 else 0)
    + List.length (vocalPart sel vocals index st))%nat) /\
  (List.length (vocalPart sel vocals index st) <= 1)%nat.
Proof.
  destruct (arrange_call_count sel vocals tempo index st m) as [Hc Hv].
  unfold Live.arranged.
  destruct (perform_prefix (arrange sel vocals tempo index st m))
    as (rest & E & Hn).
  pose proof (f_equal (@List.length _) E) as EL.
  rewrite length_app, Hc in EL.
  split; [lia|]. split; [|exact Hv].
  intros H. rewrite (Hn H) in EL. cbn [List.length] in EL. lia.
Qed.

(** X12: with the bass selected, the bass tones that a measure schedules
    tile it from its start: the first one starts at the start of the
    measure, each one starts where the one before it stops, and the one of
    the last chord stops four beats after the start of the measure; when
    no call throws there is one for each chord. *)
Theorem arranged_bass_tiles_measure (sel : list InstrumentType)
    (vocals : nat -> option string) (tempo : R) (index : nat) (st : R)
    (m : Measure) :
  tempo <> 0 ->
  has sel BASS = true ->
  chords m <> [] ->
  let calls := bassCalls (fst (Live.arranged sel vocals tempo index st m)) in
  (forall c, nth_error calls 0 = Some c -> callStart c = st) /\
  (forall k c c', nth_error calls k = Some c ->
     nth_error calls (S k) = Some c' ->
     toneEnd c = Some (callStart c')) /\
  (forall c, nth_error calls (List.length (chords m) - 1) = Some c ->
     toneEnd c = Some (st + 4 * (60 / tempo))) /\
  (snd (Live.arranged sel vocals tempo index st m) = None ->
   List.length calls = List.length (chords m)).
Proof.
  intros Ht Hsel Hne calls. unfold calls, Live.arranged.
  destruct (perform_prefix (arrange sel vocals tempo index st m))
    as (rest & E & Hn).
  destruct (arrange_bass_tiles_measure sel vocals tempo index st m
              Ht Hsel Hne) as (T1 & T2 & c0 & T3 & T4).
  assert (Hup : forall k c,
            nth_error (bassCalls (fst (Live.perform
                         (arrange sel vocals tempo index st m)))) k = Some c ->
            nth_error (bassCalls (arrange sel vocals tempo index st m)) k
            = Some c).
  { intros k c. exact (calls_prefix_nth isBassCall _ _ rest k c E). }
  split; [|split; [|split]].
  - intros c Hc. apply Hup in Hc. congruence.
  - intros k c c' Hk HSk. exact (T1 k c c' (Hup _ _ Hk) (Hup _ _ HSk)).
  - intros c Hc. exact (T2 c (Hup _ _ Hc)).
  - intros H. pose proof E as E'. rewrite (Hn H), app_nil_r in E'.
    rewrite <- E'.
    rewrite arrange_bassCalls. unfold bassPart. rewrite Hsel.
    destruct (chords m) as [|ch chs] eqn:Ec; [congruence|].
    cbn [List.length Nat.ltb Nat.leb andb]. apply bassLoop_length.
Qed.

Lemma arranged_bass_tiles_measure_witness :
  List.length (bassCalls (fst (Live.arranged [BASS; DRUMS] (fun _ => None)
                                             120 0 10 twoChordMeasure)))
  = List.length (chords twoChordMeasure).
Proof.
  refine (proj2 (proj2 (proj2
            (arranged_bass_tiles_measure [BASS; DRUMS] (fun _ => None) 120 0
               10 twoChordMeasure _ eq_refl _))) _).
  - lra.
  - discriminate.
  - rewrite (arranged_playable [BASS; DRUMS] (fun _ => None) 120 0 10
               twoChordMeasure playable_twoChordMeasure) by lra.
    reflexivity.
Defined.

End LiveMore.

Section LiveScheduler.

Import Score App Playback.
Local Open Scope list_scope.
Local Open Scope R_scope.

Lemma safe_armedState : Live.safe tenMeasures armedState.
Proof.
  unfold Live.safe. split; [reflexivity|]. split.
  { apply playable_repeat, playable_scenarioMeasure. }
  split; [cbn; lia|]. split.
  { intros t [= <-]. split; [reflexivity|].
    exists tenMeasures. split; reflexivity. }
  split; [cbn; lra|]. split; [cbn; lra|].
  intros t [= <-]. cbn. lra.
Qed.

(** X24: from a safe state (the index inside a score of playable measures,
    a positive tempo, a start anchor and a pending timeout duration that
    are not negative), with clock times that are not negative, no run of
    timer firings, tempo and play buttons, resets and instrument toggles
    makes a call throw: the run goes through, the exception-free reading
    of the effect gives the same state, and the state stays safe. *)
Theorem live_run_never_throws (ins : list (R * Input)) (s : AppState)
    (sc : ScoreData) :
  Live.safe sc s ->
  Live.clockOk ins ->
  exists s',
    Live.run ins s = Some s' /\ run ins s = Some s' /\
    score s' = Some sc /\
    (currentMeasureIndex s' < List.length (measures sc))%nat /\
    0 < tempo s' /\ 0 <= measureStartTimeRef s'.
Proof.
  intros Hsafe Hclock.
  destruct (live_run_safe ins s sc Hsafe Hclock)
    as (s' & E1 & E2 & Hs & _ & Hk & _ & Ht & Ha & _).
  exists s'. split; [exact E1|]. split; [exact E2|]. split; [exact Hs|].
  split; [exact Hk|]. split; assumption.
Qed.

Lemma live_run_never_throws_witness :
  exists s',
    Live.run [(3, TempoPlus); (4, ToggleInstrument BASS); (5, TimerFires);
              (6, PlayToggle); (7, PlayToggle); (8, ResetSession)]
             armedState = Some s' /\
    run [(3, TempoPlus); (4, ToggleInstrument BASS); (5, TimerFires);
         (6, PlayToggle); (7, PlayToggle); (8, ResetSession)]
        armedState = Some s' /\
    score s' = Some tenMeasures /\
    (currentMeasureIndex s' < List.length (measures tenMeasures))%nat /\
    0 < tempo s' /\ 0 <= measureStartTimeRef s'.
Proof.
  refine (live_run_never_throws _ armedState tenMeasures safe_armedState _).
  repeat (apply Forall_cons; [cbn; lra|]). apply Forall_nil.
Defined.



(** X18: a whole performance.  From a stopped application on a measure of
    a score of playable measures, at a positive tempo and with clock times
    that are not negative, the play button followed by one firing of the
    timeout per measure left goes through without a call throwing,
    schedules these measures once each, in order and back to back (a
    measure of four beats apart, the first one 0.1 s after the press),
    makes no other call, and ends stopped at index 0 with no timeout
    pending. *)
Theorem live_whole_performance (s : AppState) (sc : ScoreData) (now0 : R)
    (nows : list R) :
  isPlaying s = false ->
  score s = Some sc ->
  Forall Live.playable (measures sc) ->
  (currentMeasureIndex s < List.length (measures sc))%nat ->
  0 < tempo s ->
  0 <= now0 ->
  Forall (fun now => 0 <= now) nows ->
  List.length nows
  = (List.length (measures sc) - currentMeasureIndex s)%nat ->
  exists s',
    Live.run ((now0, PlayToggle) :: fires nows) s = Some s' /\
    isPlaying s' = false /\
    currentMeasureIndex s' = 0%nat /\
    playbackTimerRef s' = None /\
    measureStartTimeRef s'
    = now0 + 0.1 + INR (List.length nows) * (4 * (60 / tempo s)) /\
    audio s' =
      audio s ++ performance (selectedInstruments s) (vocalAudioMap s)
                   (tempo s) (currentMeasureIndex s) (now0 + 0.1)
                   (skipn (currentMeasureIndex s) (measures sc)).
Proof.
  intros Hp Hs Hpl Hk Htp Hnow Hnows Hlen.
  destruct (whole_performance s sc now0 nows Hp Hs Hk Htp Hnow Hlen)
    as (s' & Hrun & Hrest).
  exists s'. split; [|exact Hrest].
  destruct (nth_error (measures sc) (currentMeasureIndex s)) as [m|] eqn:Em.
  2:{ apply nth_error_None in Em. lia. }
  cbn [run] in Hrun. rewrite (step_play now0 s sc m Hp Hs Em) in Hrun.
  cbn [Live.run].
  assert (Hh : handle PlayToggle s = set_isPlaying true (set_anchor 0 s)).
  { cbn [handle]. rewrite Hp. cbn. now rewrite Hp. }
  rewrite live_step_eq, (step_play now0 s sc m Hp Hs Em).
  2:{ rewrite Hh. cbn [score tempo currentMeasureIndex set_isPlaying
                       set_anchor].
      intros _ sc' Hsc'. assert (sc' = sc) by congruence. subst sc'.
      split; [assumption|]. split.
      - rewrite anchorAt_unset by reflexivity. lra.
      - intros m' Hm'. apply nth_error_In in Hm'.
        exact (proj1 (Forall_forall _ _) Hpl m' Hm'). }
  match type of Hrun with
  | run _ ?s0 = _ =>
      destruct (live_run_safe (fires nows) s0 sc) as (s2 & L & R2 & _)
  end.
  - unfold Live.safe. split; [reflexivity|]. split; [assumption|].
    split; [exact Hk|]. split.
    { intros t [= <-]. split; [reflexivity|]. exists sc. split; reflexivity. }
    split; [assumption|]. split; [cbn; lra|].
    intros t [= <-]. cbn. pose proof (measure_seconds_pos _ Htp). lra.
  - now apply clockOk_fires.
  - rewrite L. congruence.
Qed.

Lemma live_whole_performance_witness :
  exists s',
    Live.run ((0, PlayToggle) :: fires [3; 5; 7; 9]) stoppedState = Some s' /\
    isPlaying s' = false /\
    currentMeasureIndex s' = 0%nat /\
    playbackTimerRef s' = None /\
    measureStartTimeRef s'
    = 0 + 0.1 + INR 4 * (4 * (60 / tempo stoppedState)) /\
    audio s' =
      audio stoppedState
      ++ performance [PIANO; DRUMS] (fun _ => None) 120 0 (0 + 0.1)
           (measures fourMeasures).
Proof.
  refine (live_whole_performance stoppedState fourMeasures 0 [3; 5; 7; 9]
            eq_refl eq_refl _ _ _ _ _ eq_refl).
  - apply playable_repeat, playable_twoChordMeasure.
  - cbn. lia.
  - cbn. lra.
  - lra.
  - repeat (apply Forall_cons; [lra|]). apply Forall_nil.
Defined.

(** X21: an instrument toggled while a playable measure is playing takes
    effect at once: no call throws, the measure that is playing is
    scheduled again, at the same anchor, with the new selection, and the
    timeout is armed anew for a full measure. *)
Theorem live_toggle_while_playing (now : R) (i : InstrumentType)
    (s : AppState) (sc : ScoreData) (m : Measure) :
  isPlaying s = true ->
  score s = Some sc ->
  nth_error (measures sc) (currentMeasureIndex s) = Some m ->
  Live.playable m ->
  0 < tempo s ->
  0 < measureStartTimeRef s ->
  exists s',
    Live.step now (ToggleInstrument i) s = Some s' /\
    selectedInstruments s' = toggle i (selectedInstruments s) /\
    isPlaying s' = true /\
    currentMeasureIndex s' = currentMeasureIndex s /\
    measureStartTimeRef s' = measureStartTimeRef s /\
    playbackTimerRef s' =
      Some (mkTimeout (4 * (60 / tempo s) * 1000) (4 * (60 / tempo s))
                      (List.length (measures sc))) /\
    audio s' =
      audio s ++ arrange (toggle i (selectedInstruments s)) (vocalAudioMap s)
                         (tempo s) (currentMeasureIndex s)
                         (measureStartTimeRef s) m.
Proof.
  intros Hp Hs Hm Hpl Ht Ha.
  rewrite live_step_eq.
  - apply (toggle_while_playing now i s sc m Hp Hs Hm). lra.
  - cbn [handle score tempo currentMeasureIndex set_selected].
    intros _ sc' Hsc'. assert (sc' = sc) by congruence. subst sc'.
    split; [assumption|]. split.
    + rewrite anchorAt_set by (cbn; lra). cbn. lra.
    + intros m' Hm'. congruence.
Qed.

Lemma live_toggle_while_playing_witness :
  exists s',
    Live.step 3 (ToggleInstrument BASS) armedState = Some s' /\
    selectedInstruments s' = toggle BASS (selectedInstruments armedState) /\
    isPlaying s' = true /\
    currentMeasureIndex s' = currentMeasureIndex armedState /\
    measureStartTimeRef s' = measureStartTimeRef armedState /\
    playbackTimerRef s' =
      Some (mkTimeout (4 * (60 / tempo armedState) * 1000)
                      (4 * (60 / tempo armedState))
                      (List.length (measures tenMeasures))) /\
    audio s' =
      audio armedState
      ++ arrange (toggle BASS (selectedInstruments armedState))
                 (vocalAudioMap armedState) (tempo armedState)
                 (currentMeasureIndex armedState)
                 (measureStartTimeRef armedState) scenarioMeasure.
Proof.
  refine (live_toggle_while_playing 3 BASS armedState tenMeasures
            scenarioMeasure eq_refl eq_refl eq_refl
            playable_scenarioMeasure _ _); cbn; lra.
Defined.

(** X26: the timeout firing before the last measure, the next measure
    being playable.  No call throws; the start anchor moves on by the
    duration the timeout was armed with, the next measure is scheduled at
    the new anchor with the tempo and the selection of now, and a timeout
    of a measure at the tempo of now is armed. *)
Theorem live_timer_fires_moves_on (now : R) (s : AppState)
    (sc : ScoreData) (t : Timeout) (m : Measure) :
  isPlaying s = true ->
  score s = Some sc ->
  playbackTimerRef s = Some t ->
  measureCount t = List.length (measures sc) ->
  nth_error (measures sc) (currentMeasureIndex s + 1) = Some m ->
  Live.playable m ->
  0 < tempo s ->
  0 < measureStartTimeRef s + measureDuration t ->
  exists s',
    Live.step now TimerFires s = Some s' /\
    isPlaying s' = true /\
    currentMeasureIndex s' = (currentMeasureIndex s + 1)%nat /\
    measureStartTimeRef s' = measureStartTimeRef s + measureDuration t /\
    playbackTimerRef s' =
      Some (mkTimeout (4 * (60 / tempo s) * 1000) (4 * (60 / tempo s))
                      (List.length (measures sc))) /\
    audio s' =
      audio s ++ arrange (selectedInstruments s) (vocalAudioMap s) (tempo s)
                         (currentMeasureIndex s + 1)
                         (measureStartTimeRef s + measureDuration t) m.
Proof.
  intros Hp Hs Ht Hc Hm Hpl Htp Ha.
  assert (Hlt : (currentMeasureIndex s + 1 < List.length (measures sc))%nat).
  { apply nth_error_Some. congruence. }
  assert (Hh : handle TimerFires s =
               set_index (currentMeasureIndex s + 1)
                 (set_anchor (measureStartTimeRef s + measureDuration t)
                             (set_timer None s))).
  { cbn [handle]. rewrite Ht. unfold timerCallback.
    cbn [currentMeasureIndex set_anchor set_timer]. rewrite Hc.
    destruct (Nat.leb_spec (List.length (measures sc))
                           (currentMeasureIndex s + 1)); [lia|reflexivity]. }
  rewrite live_step_eq.
  - rewrite (step_fire_next now s sc t m Hp Hs Ht Hc Hm) by lra.
    eexists. split; [reflexivity|]. cbn. repeat split.
  - rewrite Hh.
    cbn [score tempo currentMeasureIndex set_index set_anchor set_timer].
    intros _ sc' Hsc'. assert (sc' = sc) by congruence. subst sc'.
    split; [assumption|]. split.
    + rewrite anchorAt_set by (cbn; lra). cbn. lra.
    + intros m' Hm'. congruence.
Qed.

Lemma live_timer_fires_moves_on_witness :
  exists s',
    Live.step 5 TimerFires armedState = Some s' /\
    isPlaying s' = true /\
    currentMeasureIndex s' = (1 + 1)%nat /\
    measureStartTimeRef s' = 2.5 + 4 * (60 / 90) /\
    playbackTimerRef s' =
      Some (mkTimeout (4 * (60 / 90) * 1000) (4 * (60 / 90)) 10) /\
    audio s' =
      [] ++ arrange [PIANO; DRUMS] (fun _ => None) 90 (1 + 1)
                    (2.5 + 4 * (60 / 90)) scenarioMeasure.
Proof.
  refine (live_timer_fires_moves_on 5 armedState tenMeasures _
            scenarioMeasure eq_refl eq_refl eq_refl eq_refl eq_refl
            playable_scenarioMeasure _ _); cbn; lra.
Defined.

(** The tempo buttons, the play button and the instrument toggles on a
    measure that is playable: with the exceptions of the engine the step
    is the step in which every call returns. *)
Lemma live_step_same_measure (now : R) (i : Input) (s : AppState)
    (sc : ScoreData) (m : Measure) :
  i <> TimerFires -> i <> ResetSession ->
  score s = Some sc ->
  nth_error (measures sc) (currentMeasureIndex s) = Some m ->
  Live.playable m ->
  0 < tempo s -> 0 <= measureStartTimeRef s -> 0 <= now ->
  Live.step now i s = step now i s.
Proof.
  intros Hi1 Hi2 Hs Hm Hpl Ht Ha Hnow. apply live_step_eq.
  destruct (handle_keeps i s) as (Hs' & _).
  destruct (tempo_buttons_pos _ Ht) as [Hmi Hpi].
  intros _ sc' Hsc'. assert (sc' = sc) by congruence. subst sc'.
  split; [rewrite handle_tempo; destruct i; assumption|].
  split.
  - apply anchorAt_nonneg; [assumption|].
    destruct i; cbn [handle]; try assumption; try congruence.
    destruct (isPlaying s); cbn; (lra || assumption).
  - assert (Hk : currentMeasureIndex (handle i s) = currentMeasureIndex s).
    { destruct i; cbn [handle]; try reflexivity; try congruence.
      now destruct (isPlaying s). }
    rewrite Hk. intros m' Hm'. congruence.
Qed.

End LiveScheduler.
